(** * neoncore: the globe's boundary mesh generator

    A shallow embedding of the vector-outline generator of
    [src/components/Toggle.tsx] (the [CountryOutlines] component): the
    projector [latLngToVector3], the continent palette
    [CONTINENT_COLORS] / [DEFAULT_COLOR], the per-ring tessellator
    [addLines] and the loop over the features of the fetched collection.

    Numbers.  JavaScript numbers are modelled as real numbers [R]: the
    arithmetic is the exact one, and IEEE rounding, infinities and NaN
    coordinates are outside the model.  A value pushed into the colour
    array can fail to be a number at all (a channel read from something
    that is not a [THREE.Color]); the colour array therefore holds
    [option R], with [None] for such a value. *)

From Stdlib Require Import Reals Lra Lia ZArith List String.
From stdpp Require Import base list sorting strings.
Import ListNotations.

Open Scope R_scope.

(** ** Numbers *)

#[global] Instance Rle_decision : RelDecision Rle := Rle_dec.
#[global] Instance Rlt_decision : RelDecision Rlt := Rlt_dec.
#[global] Instance Rgt_decision : RelDecision Rgt := Rgt_dec.

(** [Math.ceil]: the least integer that is not below [v]. *)
Definition Math_ceil (v : R) : R := IZR (1 - up (- v)).

(** [xs.sort((a, b) => a - b)]: ascending numeric order. *)
Definition sortAscending (xs : list R) : list R := merge_sort Rle xs.

(** ** three.js values *)

Module THREE.

Record Vector3 : Type := mkVector3 { x : R; y : R; z : R }.

Record Color : Type := mkColor { r : R; g : R; b : R }.

Definition hexDigit (c : Ascii.ascii) : Z :=
  let n := Z.of_nat (Ascii.nat_of_ascii c) in
  if (48 <=? n)%Z && (n <=? 57)%Z then (n - 48)%Z
  else if (97 <=? n)%Z && (n <=? 102)%Z then (n - 87)%Z
  else if (65 <=? n)%Z && (n <=? 70)%Z then (n - 55)%Z
  else 0%Z.

Fixpoint hexValue (acc : Z) (s : string) : Z :=
  match s with
  | EmptyString => acc
  | String c rest => hexValue (16 * acc + hexDigit c)%Z rest
  end.

(** [new THREE.Color('#rrggbb')]: one channel per byte, scaled to
    [0, 1].  The colour-space conversion three.js may apply on top is
    not modelled; nothing below depends on the channel values. *)
Definition Color_ofHex (s : string) : Color :=
  let h := match s with
           | String _ digits => hexValue 0 digits
           | EmptyString => 0%Z
           end in
  mkColor (IZR (h / 65536 mod 256) / 255)
          (IZR (h / 256 mod 256) / 255)
          (IZR (h mod 256) / 255).

End THREE.

Definition GLOBE_RADIUS : R := 2.

(** ** Continent palette *)

Definition CONTINENT_COLORS : list (string * THREE.Color) :=
  [ ("Africa"%string, THREE.Color_ofHex "#ff8800");
    ("Asia"%string, THREE.Color_ofHex "#00f2ff");
    ("Europe"%string, THREE.Color_ofHex "#00ff00");
    ("North America"%string, THREE.Color_ofHex "#ff00ff");
    ("South America"%string, THREE.Color_ofHex "#ffff00");
    ("Oceania"%string, THREE.Color_ofHex "#ff0088");
    ("Antarctica"%string, THREE.Color_ofHex "#ffffff") ].

Definition DEFAULT_COLOR : THREE.Color := THREE.Color_ofHex "#444444".

(** [CONTINENT_COLORS] is an object literal, so its prototype is
    [Object.prototype] and a property read that misses the seven own keys
    goes on to the members every object inherits from there. *)
Definition Object_prototype_keys : list string :=
  [ "constructor"; "__defineGetter__"; "__defineSetter__";
    "hasOwnProperty"; "__lookupGetter__"; "__lookupSetter__";
    "isPrototypeOf"; "propertyIsEnumerable"; "toString"; "valueOf";
    "__proto__"; "toLocaleString" ]%string.

(** What a read of [CONTINENT_COLORS[key]] can evaluate to when it is not
    [undefined]: one of the table's colours, or an inherited member (a
    function, or the prototype object itself), which is not a colour. *)
Inductive PaletteValue : Type :=
  | OwnColor (c : THREE.Color)
  | Inherited (key : string).

Fixpoint ownProperty (key : string) (table : list (string * THREE.Color))
  : option THREE.Color :=
  match table with
  | [] => None
  | (k, c) :: rest => if String.eqb key k then Some c else ownProperty key rest
  end.

(** [CONTINENT_COLORS[key]]; [None] is [undefined]. *)
Definition CONTINENT_COLORS_get (key : string) : option PaletteValue :=
  match ownProperty key CONTINENT_COLORS with
  | Some c => Some (OwnColor c)
  | None =>
      if bool_decide (key ∈ Object_prototype_keys) then Some (Inherited key)
      else None
  end.

(** [CONTINENT_COLORS[continent] || DEFAULT_COLOR]: every object and
    function is truthy, only [undefined] falls through to the default. *)
Definition colorOf (continent : string) : PaletteValue :=
  match CONTINENT_COLORS_get continent with
  | Some v => v
  | None => OwnColor DEFAULT_COLOR
  end.

(** A channel read [continentColor.r]: a number on a colour, [undefined]
    on anything else. *)
Definition channel (f : THREE.Color -> R) (v : PaletteValue) : option R :=
  match v with
  | OwnColor c => Some (f c)
  | Inherited _ => None
  end.

(** [continentColor.r * 0.3]; [undefined * 0.3] is NaN, again no number. *)
Definition dimmed (f : THREE.Color -> R) (v : PaletteValue) : option R :=
  option_map (fun c => c * 0.3) (channel f v).

(** ** Projector *)

Definition latLngToVector3 (lat lng radius : R) : THREE.Vector3 :=
  let phi := (90 - lat) * (PI / 180) in
  let theta := (lng + 180) * (PI / 180) in
  let x := - radius * sin phi * cos theta in
  let y := radius * cos phi in
  let z := radius * sin phi * sin theta in
  THREE.mkVector3 x y z.

(** Euclidean distance of a point from the origin. *)
Definition norm (p : THREE.Vector3) : R :=
  sqrt (THREE.x p * THREE.x p + THREE.y p * THREE.y p + THREE.z p * THREE.z p).

(** ** Data model *)

(** A vertex [[lng, lat]] and a ring [[number, number][]]. *)
Definition Position : Type := (R * R)%type.
Definition Ring : Type := list Position.

(** [feature.geometry].  The coordinates are an optional field; for a
    type other than the two the builder looks at they are never read. *)
Inductive Geometry : Type :=
  | Polygon (coordinates : option (list Ring))
  | MultiPolygon (coordinates : option (list (list Ring)))
  | OtherGeometry (type : string).

Record Properties : Type := mkProperties {
  CONTINENT : option string;
  continent : option string
}.

Record Feature : Type := mkFeature {
  geometry : option Geometry;
  properties : option Properties
}.

(** The two arrays the builder fills: [points] holds the segment end
    points in pairs, [colors] is the flat channel array that
    [Float32BufferAttribute(colors, 3)] reads three by three. *)
Record SegmentBuffer : Type := mkBuffer {
  points : list THREE.Vector3;
  colors : list (option R)
}.

Definition emptyBuffer : SegmentBuffer := mkBuffer [] [].

(** ** Scanline tessellator: [addLines] *)

(** [polygon[i]]; every index the loops use is in range. *)
Definition vertex (polygon : Ring) (i : nat) : Position := nth i polygon (0, 0).

(** [points.push(p1, p2); colors.push(c1, c2, c3, c1, c2, c3)]. *)
Definition pushSegment (p1 p2 : THREE.Vector3) (c1 c2 c3 : option R)
  (buf : SegmentBuffer) : SegmentBuffer :=
  mkBuffer (points buf ++ [p1; p2]) (colors buf ++ [c1; c2; c3; c1; c2; c3]).

(** Body of the outline loop at index [i]. *)
Definition outlineStep (continentColor : PaletteValue) (polygon : Ring)
  (buf : SegmentBuffer) (i : nat) : SegmentBuffer :=
  let p1 := latLngToVector3 (vertex polygon i).2 (vertex polygon i).1
              (GLOBE_RADIUS + 0.02) in
  let p2 := latLngToVector3 (vertex polygon (i + 1)).2 (vertex polygon (i + 1)).1
              (GLOBE_RADIUS + 0.02) in
  pushSegment p1 p2
    (channel THREE.r continentColor) (channel THREE.g continentColor)
    (channel THREE.b continentColor) buf.

(** [for (let i = 0; i < polygon.length - 1; i++)]: the indices visited.
    On the empty ring [polygon.length - 1] is [-1] and nothing is
    visited, as with the truncated subtraction here. *)
Definition edgeIndices (polygon : Ring) : list nat :=
  seq 0 (length polygon - 1).

(** 1. Add Outlines. *)
Definition outlinePass (continentColor : PaletteValue) (polygon : Ring)
  (buf : SegmentBuffer) : SegmentBuffer :=
  foldl (outlineStep continentColor polygon) buf (edgeIndices polygon).

Record Bounds : Type := mkBounds { minX : R; maxX : R; minY : R; maxY : R }.

Definition boundsStep (bd : Bounds) (p : Position) : Bounds :=
  let '(lng, lat) := p in
  mkBounds (if decide (lng < minX bd) then lng else minX bd)
           (if decide (lng > maxX bd) then lng else maxX bd)
           (if decide (lat < minY bd) then lat else minY bd)
           (if decide (lat > maxY bd) then lat else maxY bd).

(** [let minX = 180, maxX = -180, minY = 90, maxY = -90; polygon.forEach(...)]. *)
Definition bounds (polygon : Ring) : Bounds :=
  foldl boundsStep (mkBounds 180 (-180) 90 (-90)) polygon.

(** The test of the inner loop on an edge with end latitudes [lat1], [lat2]. *)
Definition crosses (lat1 lat2 lat : R) : bool :=
  bool_decide ((lat1 <= lat /\ lat2 > lat) \/ (lat2 <= lat /\ lat1 > lat)).

(** Body of the inner loop at index [i]: push the crossing longitude. *)
Definition intersectStep (polygon : Ring) (lat : R)
  (intersections : list R) (i : nat) : list R :=
  let '(lng1, lat1) := vertex polygon i in
  let '(lng2, lat2) := vertex polygon (i + 1) in
  if crosses lat1 lat2 lat
  then intersections ++ [lng1 + (lat - lat1) * (lng2 - lng1) / (lat2 - lat1)]
  else intersections.

Definition intersectionsAt (polygon : Ring) (lat : R) : list R :=
  foldl (intersectStep polygon lat) [] (edgeIndices polygon).

(** [for (let i = 0; i < intersections.length; i += 2)
      if (intersections[i+1] !== undefined) ...]: the sorted crossings
    taken two by two, a trailing single one left out. *)
Fixpoint chords (continentColor : PaletteValue) (lat : R)
  (intersections : list R) (buf : SegmentBuffer) : SegmentBuffer :=
  match intersections with
  | lngA :: lngB :: rest =>
      let p1 := latLngToVector3 lat lngA (GLOBE_RADIUS + 0.01) in
      let p2 := latLngToVector3 lat lngB (GLOBE_RADIUS + 0.01) in
      chords continentColor lat rest
        (pushSegment p1 p2
           (dimmed THREE.r continentColor) (dimmed THREE.g continentColor)
           (dimmed THREE.b continentColor) buf)
  | _ => buf
  end.

(** Body of the scanline loop at latitude [lat]. *)
Definition scanline (continentColor : PaletteValue) (polygon : Ring)
  (buf : SegmentBuffer) (lat : R) : SegmentBuffer :=
  chords continentColor lat (sortAscending (intersectionsAt polygon lat)) buf.

(** [for (let lat = start; lat <= maxY; lat += gridStep)]: the latitudes
    the body runs at, with at most [fuel] iterations. *)
Fixpoint scanLatitudes (fuel : nat) (gridStep lat maxY : R) : list R :=
  match fuel with
  | O => []
  | S fuel' =>
      if decide (lat <= maxY)
      then lat :: scanLatitudes fuel' gridStep (lat + gridStep) maxY
      else []
  end.

(** Where the scanline loop starts. *)
Definition firstLatitude (gridStep minY : R) : R :=
  Math_ceil (minY / gridStep) * gridStep.

(** The number of latitudes [start, start + gridStep, ...] that are not
    above [maxY], for a positive step: the loop leaves by its own test
    within that many iterations (see [scanLatitudes_fuel]). *)
Definition scanCount (gridStep start maxY : R) : nat :=
  Z.to_nat (up ((maxY - start) / gridStep)).

Definition gridLatitudes (gridStep : R) (polygon : Ring) : list R :=
  let bd := bounds polygon in
  let start := firstLatitude gridStep (minY bd) in
  scanLatitudes (scanCount gridStep start (maxY bd)) gridStep start (maxY bd).

(** 2. Add Inner Grid (Latitudinal scanlines). *)
Definition gridPass (gridStep : R) (continentColor : PaletteValue)
  (polygon : Ring) (buf : SegmentBuffer) : SegmentBuffer :=
  foldl (scanline continentColor polygon) buf (gridLatitudes gridStep polygon).

(** The tessellator over an arbitrary step, as the specification's
    [tessellate] has it. *)
Definition tessellate (gridStep : R) (continentColor : PaletteValue)
  (polygon : Ring) (buf : SegmentBuffer) : SegmentBuffer :=
  gridPass gridStep continentColor polygon
    (outlinePass continentColor polygon buf).

(** [addLines]: the source fixes [const gridStep = 2.0]. *)
Definition addLines (continentColor : PaletteValue) (polygon : Ring)
  (buf : SegmentBuffer) : SegmentBuffer :=
  tessellate 2 continentColor polygon buf.

(** ** Boundary mesh builder *)

(** A string operand of [||] is falsy when [undefined] or empty. *)
Definition truthy (s : option string) : option string :=
  match s with
  | Some s' => if String.eqb s' "" then None else Some s'
  | None => None
  end.

(** [properties.CONTINENT || properties.continent || 'Unknown']. *)
Definition continentOf (props : Properties) : string :=
  match truthy (CONTINENT props) with
  | Some s => s
  | None =>
      match truthy (continent props) with
      | Some s => s
      | None => "Unknown"%string
      end
  end.

(** The callback of [data.features.forEach].  [None] is a TypeError:
    reading [geo.type] with no geometry, [properties.CONTINENT] with no
    properties, or calling [coords.forEach] with no coordinates. *)
Definition featureStep (feature : Feature) (buf : SegmentBuffer)
  : option SegmentBuffer :=
  match geometry feature with
  | None => None
  | Some geo =>
      match properties feature with
      | None => None
      | Some props =>
          let continentColor := colorOf (continentOf props) in
          match geo with
          | Polygon None | MultiPolygon None => None
          | Polygon (Some coords) =>
              Some (foldl (fun b polygon => addLines continentColor polygon b)
                      buf coords)
          | MultiPolygon (Some coords) =>
              Some (foldl
                      (fun b multiPolygon =>
                         foldl (fun b' polygon => addLines continentColor polygon b')
                           b multiPolygon)
                      buf coords)
          | OtherGeometry _ => Some buf
          end
      end
  end.

(** [data.features.forEach(...)]: an exception leaves the loop at once. *)
Fixpoint forEachFeature (features : list Feature) (buf : SegmentBuffer)
  : option SegmentBuffer :=
  match features with
  | [] => Some buf
  | feature :: rest =>
      match featureStep feature buf with
      | Some buf' => forEachFeature rest buf'
      | None => None
      end
  end.

(** The [.then((data) => ...)] callback up to [setFromPoints]: the two
    arrays start empty; [None] means the exception reached [.catch], which
    logs it, and no geometry is ever set. *)
Definition build (features : list Feature) : option SegmentBuffer :=
  forEachFeature features emptyBuffer.

(** ** Map view: the simulated air-quality reading *)

(** [Math.floor]: the greatest integer that is not above [v]. *)
Definition Math_floor (v : R) : R := IZR (up v - 1).

(** The integer part that [%] divides by: rounding toward zero. *)
Definition Math_trunc (v : R) : R :=
  if decide (0 <= v) then Math_floor v else Math_ceil v.

(** [a % b]: the remainder takes the sign of the dividend. *)
Definition remainder (a b : R) : R := a - b * Math_trunc (a / b).

Record AQIData : Type := mkAQIData {
  aqi : R;
  pm25 : R;
  status : string;
  color : string
}.

Definition getSimulatedAQI (lat lng : R) : AQIData :=
  let hash := Rabs (sin lat * 1000 + cos lng * 1000) in
  let aqi := Math_floor (remainder hash 150 + 10) in
  let pm25 := Math_floor (aqi * 0.45) in
  if decide (aqi > 150) then mkAQIData aqi pm25 "Unhealthy" "#ef4444"
  else if decide (aqi > 100) then mkAQIData aqi pm25 "Sensitive" "#f97316"
  else if decide (aqi > 50) then mkAQIData aqi pm25 "Moderate" "#eab308"
  else mkAQIData aqi pm25 "Good" "#22d3ee".

(** The width, in percent, of the bar under the reading:
    [Math.min(aqi.aqi / 2, 100)]. *)
Definition aqiBarWidth (reading : AQIData) : R := Rmin (aqi reading / 2) 100.

(** ** Map view: the smooth zoom *)

Definition easeInOutQuint (x : R) : R :=
  if decide (x < 0.5) then 16 * x * x * x * x * x
  else 1 - (-2 * x + 2) ^ 5 / 2.

(** The frame callback [animate] of [performSmoothZoom]: the zoom it
    sets, and whether it requests another frame. *)
Definition animate (startZoom targetZoom startTime currentTime : R) : R * bool :=
  let duration := 1000 in
  let elapsed := currentTime - startTime in
  let progress := Rmin (elapsed / duration) 1 in
  let easedProgress := easeInOutQuint progress in
  let nextZoom := startZoom + (targetZoom - startZoom) * easedProgress in
  (nextZoom, bool_decide (progress < 1)).

(** The targets of the two buttons, from the current zoom. *)
Definition zoomInTarget (zoom : R) : R := Rmin (zoom + 1) 12.
Definition zoomOutTarget (zoom : R) : R := Rmax (zoom - 1) 1.5.

(** ** Globe scene: the per-frame animation *)

Record Euler : Type := mkEuler { rotX : R; rotY : R; rotZ : R }.

Definition introDuration : R := 3.

Definition introFactor (t : R) : R :=
  if decide (t < introDuration) then (1 - t / introDuration) ^ 2 else 0.

(** The rotation of the globe's group after the frame at clock time [t]. *)
Definition groupFrame (active : bool) (t : R) (rotation : Euler) : Euler :=
  if decide (t < introDuration)
  then mkEuler (sin (t * 10) * introFactor t * 0.2)
               (rotY rotation + introFactor t * 0.5)
               (cos (t * 8) * introFactor t * 0.1)
  else
    let speedMultiplier := if active then 0.15 else 0.8 in
    mkEuler (rotX rotation * 0.95)
            (rotY rotation + 0.002 * speedMultiplier)
            (rotZ rotation * 0.95).

Definition pulse (t : R) : R := (sin (t * 2) + 1) / 2.

Definition emissiveIntensity (t : R) : R :=
  (if decide (t < introDuration) then 5 * introFactor t else 1.2) + pulse t * 1.5.

Definition glowScale (t : R) : R := 1.05 + pulse t * 0.015.

(** ** Globe scene: the intro camera *)

Record IntroState : Type := mkIntroState { introFinished : bool; cameraZ : R }.

(** One frame of [IntroCamera] at clock time [t]: the new state, and
    whether [onIntroEnd] was called. *)
Definition introCameraFrame (active : bool) (t : R) (st : IntroState)
  : IntroState * bool :=
  if decide (t < 3.0) then
    let targetZ := if active then 5.8 else 8.5 in
    let startZ := 20 in
    let progress := Rmin (t / 3.0) 1 in
    let ease := 1 - (1 - progress) ^ 3 in
    (mkIntroState (introFinished st) (startZ + (targetZ - startZ) * ease), false)
  else if negb (introFinished st) then (mkIntroState true (cameraZ st), true)
  else (st, false).

(** The frames at the clock times [ts], in order: the final state and the
    number of calls of [onIntroEnd]. *)
Fixpoint introCameraFrames (active : bool) (ts : list R) (st : IntroState)
  : IntroState * nat :=
  match ts with
  | [] => (st, 0%nat)
  | t :: rest =>
      let '(st', called) := introCameraFrame active t st in
      let '(final, calls) := introCameraFrames active rest st' in
      (final, ((if called then 1 else 0) + calls)%nat)
  end.

(** ** Vocabulary of the properties *)

Definition continentNames : list string := map fst CONTINENT_COLORS.

(** The half-open test as the code has it: one end at or below the line,
    the other strictly above. *)
Definition straddles (lat1 lat2 lat : R) : Prop :=
  (lat1 <= lat /\ lat < lat2) \/ (lat2 <= lat /\ lat < lat1).

#[global] Instance straddles_dec lat1 lat2 lat : Decision (straddles lat1 lat2 lat) :=
  or_dec _ _.

(** The test as the specification words it: one end strictly below the
    line, the other at or above. *)
Definition straddles_spec (lat1 lat2 lat : R) : Prop :=
  (lat1 < lat /\ lat2 >= lat) \/ (lat2 < lat /\ lat1 >= lat).

Definition edgeCrosses (polygon : Ring) (lat : R) (i : nat) : Prop :=
  straddles (vertex polygon i).2 (vertex polygon (i + 1)).2 lat.

#[global] Instance edgeCrosses_dec polygon lat i : Decision (edgeCrosses polygon lat i) :=
  straddles_dec _ _ _.

(** The longitude at which edge [i] meets the line, by linear interpolation. *)
Definition crossingLongitude (polygon : Ring) (lat : R) (i : nat) : R :=
  let '(lng1, lat1) := vertex polygon i in
  let '(lng2, lat2) := vertex polygon (i + 1) in
  lng1 + (lat - lat1) * (lng2 - lng1) / (lat2 - lat1).

(** The projection of vertex [i] at the outline radius. *)
Definition outlinePoint (polygon : Ring) (i : nat) : THREE.Vector3 :=
  latLngToVector3 (vertex polygon i).2 (vertex polygon i).1 (GLOBE_RADIUS + 0.02).

(** Number of segments held by a buffer: its points go two by two. *)
Definition segmentCount (buf : SegmentBuffer) : nat :=
  (length (points buf) / 2)%nat.

(** The colour array holds three channels per point, and the points come
    in pairs. *)
Definition aligned (buf : SegmentBuffer) : Prop :=
  length (colors buf) = (3 * length (points buf))%nat
  /\ Nat.Even (length (points buf)).

(** The features on which the callback raises. *)
Definition malformed (feature : Feature) : bool :=
  match geometry feature, properties feature with
  | None, _ | _, None => true
  | Some (Polygon None), _ | Some (MultiPolygon None), _ => true
  | _, _ => false
  end.

(** A feature with one two-vertex ring and one with no geometry. *)
Definition edgeFeature : Feature :=
  mkFeature (Some (Polygon (Some [[(0, 0); (10, 0)]])))
            (Some (mkProperties None (Some "Asia"%string))).

Definition noGeometryFeature : Feature :=
  mkFeature None (Some (mkProperties None (Some "Asia"%string))).

(** The points the pairing loop emits for the sorted crossings [xs]. *)
Fixpoint chordPoints (lat : R) (xs : list R) : list THREE.Vector3 :=
  match xs with
  | lngA :: lngB :: rest =>
      latLngToVector3 lat lngA (GLOBE_RADIUS + 0.01)
      :: latLngToVector3 lat lngB (GLOBE_RADIUS + 0.01)
      :: chordPoints lat rest
  | _ => []
  end.

(** A point list read as segments, each of which satisfies [P]. *)
Inductive segmentsAll (P : THREE.Vector3 -> THREE.Vector3 -> Prop)
  : list THREE.Vector3 -> Prop :=
  | segmentsAll_nil : segmentsAll P []
  | segmentsAll_cons p1 p2 rest :
      P p1 p2 -> segmentsAll P rest -> segmentsAll P (p1 :: p2 :: rest).

Definition isMultipleOf (gridStep v : R) : Prop :=
  exists m : Z, v = IZR m * gridStep.

(** [v] is the smallest multiple of [gridStep] that is not below [bound]. *)
Definition leastMultipleFrom (gridStep bound v : R) : Prop :=
  isMultipleOf gridStep v
  /\ bound <= v
  /\ forall m : Z, bound <= IZR m * gridStep -> v <= IZR m * gridStep.

(** [lat] is a scanline of the ring: a multiple of the step, one of the
    latitudes the loop visits, within the bounds the bounding pass found,
    and between the latitudes of two vertices of the ring. *)
Definition scanlineOf (gridStep : R) (polygon : Ring) (lat : R) : Prop :=
  isMultipleOf gridStep lat
  /\ lat ∈ gridLatitudes gridStep polygon
  /\ minY (bounds polygon) <= lat <= maxY (bounds polygon)
  /\ exists v1 v2 : Position,
       v1 ∈ polygon /\ v2 ∈ polygon /\ v1.2 <= lat <= v2.2.

(** Both end points of the segment are projected from one scanline latitude. *)
Definition gridSegment (gridStep : R) (polygon : Ring)
  (p1 p2 : THREE.Vector3) : Prop :=
  exists lat lngA lngB : R,
    p1 = latLngToVector3 lat lngA (GLOBE_RADIUS + 0.01)
    /\ p2 = latLngToVector3 lat lngB (GLOBE_RADIUS + 0.01)
    /\ scanlineOf gridStep polygon lat.

Definition squareRing : Ring := [(0, 0); (10, 0); (10, 10); (0, 10)].

(** The buffer [b1] followed by the buffer [b2]. *)
Definition bufferAppend (b1 b2 : SegmentBuffer) : SegmentBuffer :=
  mkBuffer (points b1 ++ points b2) (colors b1 ++ colors b2).

(** [f] only pushes: what it adds does not depend on what the buffer
    holds, and what the buffer holds stays in front. *)
Definition appends (f : SegmentBuffer -> SegmentBuffer) : Prop :=
  forall buf, f buf = bufferAppend buf (f emptyBuffer).

(** The colour triple of a point of the outline and of the grid. *)
Definition fullTriple (v : PaletteValue) : list (option R) :=
  [channel THREE.r v; channel THREE.g v; channel THREE.b v].

Definition dimTriple (v : PaletteValue) : list (option R) :=
  [dimmed THREE.r v; dimmed THREE.g v; dimmed THREE.b v].

(** A grid segment seen from the ring: one latitude, longitudes in
    ascending order, both between the longitudes of two vertices. *)
Definition chordWithin (polygon : Ring) (p1 p2 : THREE.Vector3) : Prop :=
  exists lat lngA lngB : R,
    p1 = latLngToVector3 lat lngA (GLOBE_RADIUS + 0.01)
    /\ p2 = latLngToVector3 lat lngB (GLOBE_RADIUS + 0.01)
    /\ lngA <= lngB
    /\ exists v1 v2 : Position,
         v1 ∈ polygon /\ v2 ∈ polygon /\ v1.1 <= lngA /\ lngB <= v2.1.

(** The frames of the globe's group at the clock times [ts], in order. *)
Definition groupFrames (active : bool) (ts : list R) (rotation : Euler) : Euler :=
  foldl (fun rot t => groupFrame active t rot) rotation ts.

(** A ring above the latitudes of the globe. *)
Definition highRing : Ring := [(0, 100); (10, 104)].

(** The square ring with its first vertex repeated at the end. *)
Definition closedSquare : Ring := [(0, 0); (10, 0); (10, 10); (0, 10); (0, 0)].

(** * Properties *)

(** ** Numbers *)

Lemma Math_ceil_bounds (v : R) : v <= Math_ceil v < v + 1.
Proof.
  unfold Math_ceil. destruct (archimed (- v)) as [Hgt Hle].
  rewrite minus_IZR. split; lra.
Qed.

Lemma Math_ceil_least (v : R) (n : Z) : v <= IZR n -> Math_ceil v <= IZR n.
Proof.
  intros Hv. pose proof (Math_ceil_bounds v) as [_ Hlt].
  unfold Math_ceil in *. apply IZR_le.
  assert (1 - up (- v) < n + 1)%Z; [|lia].
  apply lt_IZR. rewrite plus_IZR. lra.
Qed.

Lemma Math_ceil_IZR (n : Z) : Math_ceil (IZR n) = IZR n.
Proof.
  apply Rle_antisym.
  - apply Math_ceil_least. lra.
  - apply Math_ceil_bounds.
Qed.

Lemma up_IZR (n : Z) : up (IZR n) = (n + 1)%Z.
Proof. symmetry. apply tech_up; rewrite plus_IZR; lra. Qed.

#[global] Instance Rle_total : Total Rle.
Proof. intros a b. destruct (Rle_dec a b); [now left | right; lra]. Qed.

(** The sort puts the crossings in ascending order and keeps them all. *)
Lemma sortAscending_sorted (xs : list R) :
  Sorted Rle (sortAscending xs) /\ sortAscending xs ≡ₚ xs.
Proof.
  split; [apply Sorted_merge_sort, _ | apply merge_sort_Permutation].
Qed.

(** ** Projector *)

Lemma latLngToVector3_square (lat lng radius : R) :
  let p := latLngToVector3 lat lng radius in
  THREE.x p * THREE.x p + THREE.y p * THREE.y p + THREE.z p * THREE.z p
  = radius * radius.
Proof.
  cbn. set (phi := (90 - lat) * (PI / 180)). set (theta := (lng + 180) * (PI / 180)).
  pose proof (sin2_cos2 phi) as Hp. pose proof (sin2_cos2 theta) as Ht.
  unfold Rsqr in *.
  replace (- radius * sin phi * cos theta * (- radius * sin phi * cos theta)
           + radius * cos phi * (radius * cos phi)
           + radius * sin phi * sin theta * (radius * sin phi * sin theta))
    with (radius * radius
          * (sin phi * sin phi * (sin theta * sin theta + cos theta * cos theta)
             + cos phi * cos phi)) by ring.
  rewrite Ht, Rmult_1_r, Hp. ring.
Qed.

(** C5: for a latitude in [-90, 90], a longitude in [-180, 180] and a
    positive radius, the projector returns the point with
    x = -radius*sin(phi)*cos(theta), y = radius*cos(phi),
    z = radius*sin(phi)*sin(theta), where phi = (90 - lat)*pi/180 and
    theta = (lng + 180)*pi/180, and that point lies at Euclidean distance
    radius from the origin.  (Over the reals; the ranges of lat and lng
    play no part in the proof.) *)
Theorem latLngToVector3_on_sphere (lat lng radius : R) :
  -90 <= lat <= 90 -> -180 <= lng <= 180 -> 0 < radius ->
  let phi := (90 - lat) * PI / 180 in
  let theta := (lng + 180) * PI / 180 in
  latLngToVector3 lat lng radius
  = THREE.mkVector3 (- radius * sin phi * cos theta)
                    (radius * cos phi)
                    (radius * sin phi * sin theta)
  /\ norm (latLngToVector3 lat lng radius) = radius.
Proof.
  intros _ _ Hr phi theta. split.
  - unfold latLngToVector3.
    replace ((90 - lat) * (PI / 180)) with phi by (unfold phi; field).
    replace ((lng + 180) * (PI / 180)) with theta by (unfold theta; field).
    reflexivity.
  - unfold norm. rewrite latLngToVector3_square.
    apply sqrt_square. lra.
Qed.

Lemma latLngToVector3_on_sphere_witness :
  latLngToVector3 0 0 2
  = THREE.mkVector3 (- 2 * sin ((90 - 0) * PI / 180) * cos ((0 + 180) * PI / 180))
                    (2 * cos ((90 - 0) * PI / 180))
                    (2 * sin ((90 - 0) * PI / 180) * sin ((0 + 180) * PI / 180))
  /\ norm (latLngToVector3 0 0 2) = 2.
Proof. apply (latLngToVector3_on_sphere 0 0 2); lra. Defined.

(** ** Continent palette *)

Lemma ownProperty_miss (key : string) (table : list (string * THREE.Color)) :
  key ∉ map fst table -> ownProperty key table = None.
Proof.
  induction table as [|[k c] rest IH]; intros Hnot; [reflexivity|].
  cbn in *. apply not_elem_of_cons in Hnot as [Hne Hrest].
  destruct (String.eqb_spec key k) as [->|_]; [contradiction|].
  now apply IH.
Qed.

(** The seven names get their colours. *)
Lemma colorOf_own :
  Forall (fun kc => colorOf kc.1 = OwnColor kc.2) CONTINENT_COLORS.
Proof. repeat constructor. Qed.

(** A name that is neither one of the seven nor the name of a member of
    [Object.prototype] gets the gray. *)
Lemma colorOf_default (name : string) :
  name ∉ continentNames -> name ∉ Object_prototype_keys ->
  colorOf name = OwnColor DEFAULT_COLOR.
Proof.
  intros Hseven Hproto. unfold colorOf, CONTINENT_COLORS_get.
  rewrite ownProperty_miss by exact Hseven.
  now rewrite bool_decide_eq_false_2.
Qed.

(** A feature with no continent label, or an empty one, is looked up as
    ['Unknown'] and gets the gray. *)
Lemma colorOf_unlabelled (props : Properties) :
  truthy (CONTINENT props) = None -> truthy (continent props) = None ->
  colorOf (continentOf props) = OwnColor DEFAULT_COLOR.
Proof.
  intros H1 H2. unfold continentOf. now rewrite H1, H2.
Qed.

(** C7: the palette does not return the gray fallback for every name
    outside the seven: on the name of a member inherited from
    [Object.prototype], here ["constructor"], the read of the table is not
    [undefined], the [||] keeps it, and what is used as the colour is not a
    colour: the channels pushed for a segment of such a feature are no
    numbers. *)
Theorem colorOf_inherited_key :
  ("constructor"%string ∉ continentNames)
  /\ colorOf "constructor" = Inherited "constructor"
  /\ colorOf "constructor" <> OwnColor DEFAULT_COLOR
  /\ colors (outlinePass (colorOf "constructor") [(0, 0); (10, 0)] emptyBuffer)
     = [None; None; None; None; None; None].
Proof.
  split; [|split; [|split]].
  - apply (proj1 (bool_decide_eq_false _)). reflexivity.
  - reflexivity.
  - discriminate.
  - reflexivity.
Qed.

(** ** The crossing test *)

Lemma crosses_straddles (lat1 lat2 lat : R) :
  crosses lat1 lat2 lat = true <-> straddles lat1 lat2 lat.
Proof.
  unfold crosses, straddles. rewrite bool_decide_eq_true.
  split; intros [[H1 H2]|[H1 H2]]; [left|right|left|right]; split; lra.
Qed.

Lemma intersectStep_decide (polygon : Ring) (lat : R) (acc : list R) (i : nat) :
  intersectStep polygon lat acc i
  = if decide (edgeCrosses polygon lat i)
    then acc ++ [crossingLongitude polygon lat i] else acc.
Proof.
  destruct (decide (edgeCrosses polygon lat i)) as [Hs|Hs];
    unfold intersectStep, edgeCrosses, crossingLongitude in *;
    destruct (vertex polygon i) as [lng1 lat1];
    destruct (vertex polygon (i + 1)) as [lng2 lat2]; cbn [snd] in Hs.
  - now rewrite (proj2 (crosses_straddles _ _ _) Hs).
  - destruct (crosses lat1 lat2 lat) eqn:Hc; [|reflexivity].
    apply crosses_straddles in Hc. contradiction.
Qed.

Lemma intersectStep_foldl (polygon : Ring) (lat : R) (indices : list nat) :
  forall acc : list R,
    foldl (intersectStep polygon lat) acc indices
    = acc ++ map (crossingLongitude polygon lat)
               (filter (edgeCrosses polygon lat) indices).
Proof.
  induction indices as [|i rest IH]; intros acc; cbn [foldl].
  - now rewrite filter_nil, app_nil_r.
  - rewrite IH, filter_cons, intersectStep_decide.
    destruct (decide (edgeCrosses polygon lat i)); [|reflexivity].
    now rewrite <- app_assoc.
Qed.

(** C2, as the code has it: in the grid pass an edge (i, i+1) is counted
    as crossing the line at [lat] if and only if one end point's latitude is
    at or below [lat] and the other's is strictly above it; the crossings
    collected for a line are the interpolated longitudes of exactly those
    edges, in ring order. *)
Theorem crossing_test_half_open (polygon : Ring) (lat : R) :
  (forall lat1 lat2 : R,
      crosses lat1 lat2 lat = true
      <-> (lat1 <= lat /\ lat < lat2) \/ (lat2 <= lat /\ lat < lat1))
  /\ intersectionsAt polygon lat
     = map (crossingLongitude polygon lat)
         (filter (edgeCrosses polygon lat) (edgeIndices polygon)).
Proof.
  split.
  - intros lat1 lat2. apply crosses_straddles.
  - unfold intersectionsAt. now rewrite intersectStep_foldl.
Qed.

(** C2 as stated fails: the edge from latitude 0 to latitude 10 is counted
    on the line at latitude 0, although neither end is strictly below the
    line; the edge from 0 to 5 is not counted on the line at 5, although one
    end is strictly below and the other on the line. *)
Lemma crossing_test_not_strict_below :
  ~ (forall lat1 lat2 lat : R,
        crosses lat1 lat2 lat = true <-> straddles_spec lat1 lat2 lat)
  /\ (crosses 0 10 0 = true /\ ~ straddles_spec 0 10 0)
  /\ (crosses 0 5 5 = false /\ straddles_spec 0 5 5)
  /\ intersectionsAt [(0, 0); (10, 10)] 0 = [0 + (0 - 0) * (10 - 0) / (10 - 0)].
Proof.
  assert (H1 : crosses 0 10 0 = true).
  { apply crosses_straddles. left. lra. }
  assert (H2 : ~ straddles_spec 0 10 0).
  { intros [[? ?]|[? ?]]; lra. }
  split; [|split; [|split]].
  - intros Hall. apply H2, Hall, H1.
  - now split.
  - split.
    + destruct (crosses 0 5 5) eqn:Hc; [|reflexivity].
      apply crosses_straddles in Hc. destruct Hc as [[? ?]|[? ?]]; lra.
    + left. lra.
  - unfold intersectionsAt. cbn. unfold intersectStep. cbn.
    now rewrite H1.
Qed.

(** C9: when the crossing test succeeds on an edge, the two end latitudes
    differ, so the divisor [lat2 - lat1] of the interpolation is not zero. *)
Theorem crossing_divisor_nonzero (lat1 lat2 lat : R) :
  crosses lat1 lat2 lat = true -> lat1 <> lat2 /\ lat2 - lat1 <> 0.
Proof.
  intros Hc. apply crosses_straddles in Hc.
  destruct Hc as [[? ?]|[? ?]]; split; lra.
Qed.

Lemma crossing_divisor_nonzero_witness :
  crosses 0 10 5 = true /\ (0 <> 10 /\ 10 - 0 <> 0).
Proof.
  assert (H : crosses 0 10 5 = true).
  { apply crosses_straddles. left. lra. }
  split; [exact H | exact (crossing_divisor_nonzero 0 10 5 H)].
Defined.

(** ** Outline pass *)

Lemma outlineStep_foldl (c : PaletteValue) (polygon : Ring) (indices : list nat) :
  forall buf : SegmentBuffer,
    points (foldl (outlineStep c polygon) buf indices)
    = points buf
      ++ flat_map (fun i => [outlinePoint polygon i; outlinePoint polygon (i + 1)])
           indices.
Proof.
  induction indices as [|i rest IH]; intros buf; cbn [foldl flat_map].
  - now rewrite app_nil_r.
  - rewrite IH. cbn. now rewrite <- app_assoc.
Qed.

Lemma pairs_length {A : Type} (f g : nat -> A) (indices : list nat) :
  length (flat_map (fun i => [f i; g i]) indices) = (2 * length indices)%nat.
Proof. induction indices as [|i rest IH]; cbn in *; lia. Qed.

Lemma pairs_lookup {A : Type} (f g : nat -> A) (n : nat) :
  forall start k : nat,
    (k < n)%nat ->
    flat_map (fun i => [f i; g i]) (seq start n) !! (2 * k)%nat = Some (f (start + k)%nat)
    /\ flat_map (fun i => [f i; g i]) (seq start n) !! (2 * k + 1)%nat
       = Some (g (start + k)%nat).
Proof.
  induction n as [|n IH]; intros start k Hk; [lia|].
  destruct k as [|k].
  - cbn. now rewrite Nat.add_0_r.
  - destruct (IH (S start) k ltac:(lia)) as [He Ho].
    replace (2 * S k)%nat with (S (S (2 * k))) by lia.
    replace (S (S (2 * k)) + 1)%nat with (S (S (2 * k + 1))) by lia.
    replace (start + S k)%nat with (S start + k)%nat by lia.
    cbn [seq flat_map app lookup list_lookup]. split; assumption.
Qed.

Lemma outlinePass_points (c : PaletteValue) (polygon : Ring) (buf : SegmentBuffer) :
  points (outlinePass c polygon buf)
  = points buf
    ++ flat_map (fun i => [outlinePoint polygon i; outlinePoint polygon (i + 1)])
         (seq 0 (length polygon - 1)).
Proof. apply outlineStep_foldl. Qed.

Lemma outlinePass_segmentCount (c : PaletteValue) (polygon : Ring) :
  segmentCount (outlinePass c polygon emptyBuffer) = (length polygon - 1)%nat.
Proof.
  unfold segmentCount. rewrite outlinePass_points. cbn [points emptyBuffer app].
  rewrite pairs_length, length_seq.
  rewrite Nat.mul_comm, Nat.div_mul; lia.
Qed.

(** C8: the outline pass emits max(ring.length - 1, 0) segments, none for a
    ring of fewer than two vertices; they are the segments from vertex i to
    vertex i+1 for i = 0 .. ring.length - 2 and nothing else, so no edge
    from the last vertex back to the first. *)
Theorem outline_segment_count (c : PaletteValue) (polygon : Ring) :
  let out := outlinePass c polygon emptyBuffer in
  Z.of_nat (segmentCount out) = Z.max (Z.of_nat (length polygon) - 1) 0
  /\ length (points out) = (2 * segmentCount out)%nat
  /\ ((length polygon < 2)%nat -> points out = [])
  /\ points out
     = flat_map (fun i => [outlinePoint polygon i; outlinePoint polygon (i + 1)])
         (seq 0 (length polygon - 1)).
Proof.
  cbn zeta. rewrite outlinePass_segmentCount.
  rewrite outlinePass_points. cbn [points emptyBuffer app].
  rewrite pairs_length, length_seq.
  repeat split.
  - lia.
  - intros Hshort. now replace (length polygon - 1)%nat with 0%nat by lia.
Qed.

(** C10: on a ring of at least two vertices, whenever outline segments k
    and k+1 both exist, the second point of segment k and the first point
    of segment k+1 are the same point, the projection of vertex k+1 at the
    outline radius. *)
Theorem outline_connected (c : PaletteValue) (polygon : Ring) (k : nat) :
  (2 <= length polygon)%nat ->
  (k + 1 < segmentCount (outlinePass c polygon emptyBuffer))%nat ->
  let pts := points (outlinePass c polygon emptyBuffer) in
  pts !! (2 * k + 1)%nat = Some (outlinePoint polygon (k + 1))
  /\ pts !! (2 * (k + 1))%nat = Some (outlinePoint polygon (k + 1)).
Proof.
  intros Hlen Hk. cbn zeta.
  rewrite outlinePass_segmentCount in Hk.
  rewrite outlinePass_points. cbn [points emptyBuffer app].
  set (f := outlinePoint polygon).
  set (g := fun i : nat => outlinePoint polygon (i + 1)).
  split.
  - exact (proj2 (pairs_lookup f g (length polygon - 1) 0 k ltac:(lia))).
  - exact (proj1 (pairs_lookup f g (length polygon - 1) 0 (k + 1) Hk)).
Qed.

Lemma outline_connected_witness :
  let polygon : Ring := [(0, 0); (10, 0); (10, 10)] in
  let pts := points (outlinePass (OwnColor DEFAULT_COLOR) polygon emptyBuffer) in
  pts !! 1%nat = Some (outlinePoint polygon 1)
  /\ pts !! 2%nat = Some (outlinePoint polygon 1).
Proof.
  intros polygon.
  apply (outline_connected (OwnColor DEFAULT_COLOR) polygon 0).
  - cbn. lia.
  - rewrite outlinePass_segmentCount. cbn. lia.
Defined.

(** ** Buffer invariant *)

Lemma aligned_empty : aligned emptyBuffer.
Proof. split; [reflexivity | exists 0%nat; reflexivity]. Qed.

Lemma aligned_pushSegment p1 p2 c1 c2 c3 (buf : SegmentBuffer) :
  aligned buf -> aligned (pushSegment p1 p2 c1 c2 c3 buf).
Proof.
  intros [Hlen [n Hn]]. unfold aligned, pushSegment. cbn [points colors].
  rewrite !length_app. cbn [length]. split; [lia|].
  exists (S n). lia.
Qed.

Lemma aligned_foldl {A : Type} (f : SegmentBuffer -> A -> SegmentBuffer) (l : list A) :
  (forall buf a, aligned buf -> aligned (f buf a)) ->
  forall buf, aligned buf -> aligned (foldl f buf l).
Proof.
  intros Hf. induction l as [|a l IH]; intros buf Hbuf; cbn [foldl]; auto.
Qed.

Lemma aligned_chords (c : PaletteValue) (lat : R) (xs : list R) :
  forall buf, aligned buf ->
    aligned (chords c lat xs buf)
    /\ forall a, aligned (chords c lat (a :: xs) buf).
Proof.
  induction xs as [|b rest IH]; intros buf Hbuf.
  - split; [exact Hbuf | intros a; exact Hbuf].
  - split.
    + apply IH, Hbuf.
    + intros a. cbn [chords]. apply IH. now apply aligned_pushSegment.
Qed.

Lemma aligned_tessellate (gridStep : R) (c : PaletteValue) (polygon : Ring)
  (buf : SegmentBuffer) :
  aligned buf -> aligned (tessellate gridStep c polygon buf).
Proof.
  intros Hbuf. unfold tessellate, gridPass, outlinePass.
  apply aligned_foldl.
  - intros b lat Hb. unfold scanline. now apply aligned_chords.
  - apply aligned_foldl; [|exact Hbuf].
    intros b i Hb. unfold outlineStep. now apply aligned_pushSegment.
Qed.

Lemma aligned_featureStep (feature : Feature) (buf buf' : SegmentBuffer) :
  aligned buf -> featureStep feature buf = Some buf' -> aligned buf'.
Proof.
  intros Hbuf. unfold featureStep.
  destruct (geometry feature) as [[[coords|]|[coords|]|t]|];
    destruct (properties feature) as [props|]; try discriminate;
    intros [= <-]; try exact Hbuf.
  - apply aligned_foldl; [|exact Hbuf].
    intros b polygon Hb. now apply aligned_tessellate.
  - apply aligned_foldl; [|exact Hbuf].
    intros b multiPolygon Hb. apply aligned_foldl; [|exact Hb].
    intros b' polygon Hb'. now apply aligned_tessellate.
Qed.

Lemma aligned_forEachFeature (features : list Feature) :
  forall buf buf', aligned buf ->
    forEachFeature features buf = Some buf' -> aligned buf'.
Proof.
  induction features as [|feature rest IH]; intros buf buf' Hbuf; cbn [forEachFeature].
  - now intros [= <-].
  - destruct (featureStep feature buf) as [buf1|] eqn:Hstep; [|discriminate].
    apply IH. eapply aligned_featureStep; eassumption.
Qed.

(** ** Failure of the build *)

Lemma featureStep_malformed (feature : Feature) (buf : SegmentBuffer) :
  featureStep feature buf = None <-> malformed feature = true.
Proof.
  unfold featureStep, malformed.
  destruct (geometry feature) as [[[coords|]|[coords|]|t]|];
    destruct (properties feature) as [props|]; split; (discriminate || reflexivity).
Qed.

Lemma forEachFeature_app (fs1 fs2 : list Feature) :
  forall buf,
    forEachFeature (fs1 ++ fs2) buf
    = match forEachFeature fs1 buf with
      | Some buf' => forEachFeature fs2 buf'
      | None => None
      end.
Proof.
  induction fs1 as [|feature rest IH]; intros buf; cbn; [reflexivity|].
  destruct (featureStep feature buf); [apply IH | reflexivity].
Qed.

Lemma forEachFeature_aborts (features : list Feature) :
  forall buf,
    forEachFeature features buf = None
    <-> exists feature, feature ∈ features /\ malformed feature = true.
Proof.
  induction features as [|feature rest IH]; intros buf; cbn [forEachFeature].
  - split; [discriminate|]. intros (f & Hin & _). now apply elem_of_nil in Hin.
  - destruct (featureStep feature buf) as [buf1|] eqn:Hstep.
    + rewrite IH. split; intros (f & Hin & Hbad).
      * exists f. split; [apply elem_of_cons; now right | exact Hbad].
      * apply elem_of_cons in Hin as [->|Hin]; [|now exists f].
        apply (featureStep_malformed _ buf) in Hbad. congruence.
    + split; [|reflexivity]. intros _. exists feature.
      split; [apply elem_of_cons; now left | now apply (featureStep_malformed _ buf)].
Qed.

(** The build goes through on a collection without malformed features. *)
Lemma build_total (features : list Feature) :
  Forall (fun feature => malformed feature = false) features ->
  exists buf, build features = Some buf.
Proof.
  intros Hall. unfold build.
  destruct (forEachFeature features emptyBuffer) as [buf|] eqn:Hrun; [now exists buf|].
  apply forEachFeature_aborts in Hrun as (f & Hin & Hbad).
  rewrite Forall_forall in Hall. specialize (Hall f Hin). congruence.
Qed.

(** C6: the buffer a build puts out holds as many points as colour
    triples (three channels per point in the flat colour array), and both
    counts are even. *)
Theorem build_aligned (features : list Feature) (buf : SegmentBuffer) :
  build features = Some buf ->
  let triples := (length (colors buf) / 3)%nat in
  length (colors buf) = (3 * triples)%nat
  /\ length (points buf) = triples
  /\ Nat.Even (length (points buf))
  /\ Nat.Even triples.
Proof.
  intros Hbuild.
  destruct (aligned_forEachFeature features emptyBuffer buf aligned_empty Hbuild)
    as [Hlen Heven].
  cbn zeta. rewrite Hlen, Nat.mul_comm, Nat.div_mul by lia.
  repeat split; (lia || exact Heven).
Qed.

Lemma build_aligned_witness :
  exists buf,
    build [edgeFeature] = Some buf
    /\ length (colors buf) = (3 * (length (colors buf) / 3))%nat
    /\ length (points buf) = (length (colors buf) / 3)%nat
    /\ Nat.Even (length (points buf))
    /\ Nat.Even (length (colors buf) / 3).
Proof.
  destruct (build_total [edgeFeature]) as [buf Hbuf].
  - repeat constructor.
  - exists buf. split; [exact Hbuf | exact (build_aligned [edgeFeature] buf Hbuf)].
Defined.

(** C1, as the code has it: a feature with no [geometry] (or no
    [properties]), or a Polygon or MultiPolygon with no [coordinates],
    makes the callback raise, and the whole build is given up: it yields a
    buffer exactly when the collection has no such feature.  What is
    skipped silently is a feature whose geometry is of another type:
    wherever it stands, the build is the one of the collection without it. *)
Theorem build_aborts_on_malformed (features : list Feature) :
  (build features = None
   <-> exists feature, feature ∈ features /\ malformed feature = true)
  /\ ((exists buf, build features = Some buf)
      <-> Forall (fun feature => malformed feature = false) features)
  /\ (forall (after : list Feature) (type : string) (props : Properties),
         build (features ++ mkFeature (Some (OtherGeometry type)) (Some props) :: after)
         = build (features ++ after)).
Proof.
  split; [|split].
  - apply forEachFeature_aborts.
  - split; [|apply build_total].
    intros [buf Hbuf]. apply Forall_forall. intros f Hin.
    destruct (malformed f) eqn:Hbad; [|reflexivity].
    assert (Hnone : build features = None).
    { apply forEachFeature_aborts. now exists f. }
    congruence.
  - intros after type props. unfold build.
    rewrite !forEachFeature_app.
    destruct (forEachFeature features emptyBuffer); reflexivity.
Qed.

(** C1 as stated fails: with a feature that has no geometry in the
    collection the build yields nothing, wherever the feature stands,
    although the well-formed feature alone builds. *)
Lemma build_not_partial :
  build [noGeometryFeature; edgeFeature] = None
  /\ build [edgeFeature; noGeometryFeature] = None
  /\ (exists buf, build [edgeFeature] = Some buf)
  /\ ~ (forall features : list Feature,
           exists buf,
             build features = Some buf
             /\ build (List.filter (fun f => negb (malformed f)) features) = Some buf).
Proof.
  assert (H1 : build [noGeometryFeature; edgeFeature] = None) by reflexivity.
  assert (H2 : build [edgeFeature; noGeometryFeature] = None).
  { apply forEachFeature_aborts. exists noGeometryFeature.
    split; [|reflexivity]. apply elem_of_cons. right. apply elem_of_cons. now left. }
  split; [exact H1|]. split; [exact H2|]. split.
  - apply build_total. repeat constructor.
  - intros Hall. destruct (Hall [noGeometryFeature; edgeFeature]) as (buf & Hbuf & _).
    congruence.
Qed.

(** ** The scanline loop *)

Section ScanLatitudes.

Variables gridStep maxLat : R.
Hypothesis gridStep_pos : 0 < gridStep.

(** [scanCount] counts the latitudes of the progression that are not
    above the bound. *)
Lemma scanCount_spec (start : R) (k : nat) :
  (k < scanCount gridStep start maxLat)%nat <-> start + INR k * gridStep <= maxLat.
Proof.
  unfold scanCount. set (q := (maxLat - start) / gridStep).
  assert (Hq : q * gridStep = maxLat - start) by (unfold q; field; lra).
  destruct (archimed q) as [Hup1 Hup2].
  rewrite INR_IZR_INZ. split.
  - intros Hk.
    assert (Hz : (Z.of_nat k <= up q - 1)%Z) by lia.
    apply IZR_le in Hz. rewrite minus_IZR in Hz.
    assert (IZR (Z.of_nat k) <= q) by lra.
    assert (IZR (Z.of_nat k) * gridStep <= q * gridStep)
      by (apply Rmult_le_compat_r; lra).
    lra.
  - intros Hk.
    assert (Hle : IZR (Z.of_nat k) * gridStep <= q * gridStep) by lra.
    apply Rmult_le_reg_r in Hle; [|exact gridStep_pos].
    assert (Hz : (Z.of_nat k < up q)%Z) by (apply lt_IZR; lra).
    lia.
Qed.

Lemma scanCount_next (start : R) :
  start <= maxLat ->
  scanCount gridStep start maxLat = S (scanCount gridStep (start + gridStep) maxLat).
Proof.
  intros Hstart.
  set (n := scanCount gridStep start maxLat).
  set (n' := scanCount gridStep (start + gridStep) maxLat).
  assert (Hshift : forall k, (k < n')%nat <-> (S k < n)%nat).
  { intros k. unfold n, n'. rewrite !scanCount_spec, S_INR. split; lra. }
  assert (H0 : (0 < n)%nat).
  { apply scanCount_spec. cbn. lra. }
  destruct n' as [|m].
  - destruct (Nat.eq_dec n 1%nat) as [->|Hne]; [reflexivity|].
    assert (Hbad : (0 < 0)%nat) by (apply Hshift; lia). lia.
  - assert (H1 : (S m < n)%nat) by (apply Hshift; lia).
    assert (H2 : ~ (S (S m) < n)%nat) by (rewrite <- Hshift; lia).
    lia.
Qed.

Lemma scanCount_stop (start : R) :
  ~ start <= maxLat -> scanCount gridStep start maxLat = 0%nat.
Proof.
  intros Hstart. destruct (scanCount gridStep start maxLat) eqn:Hn; [reflexivity|].
  assert (H0 : (0 < scanCount gridStep start maxLat)%nat) by lia.
  apply scanCount_spec in H0. cbn in H0. lra.
Qed.

(** The loop visits the progression [start + k * gridStep], and leaves by
    its own test after [scanCount] iterations whatever fuel is left. *)
Lemma scanLatitudes_progression (fuel : nat) :
  forall start : R,
    scanLatitudes fuel gridStep start maxLat
    = map (fun k => start + INR k * gridStep)
        (seq 0 (Nat.min fuel (scanCount gridStep start maxLat))).
Proof.
  induction fuel as [|fuel IH]; intros start; [reflexivity|].
  cbn [scanLatitudes]. destruct (decide (start <= maxLat)) as [Hle|Hgt].
  - rewrite (scanCount_next start Hle), IH. cbn [Nat.min seq map].
    f_equal; [cbn; lra|].
    rewrite <- seq_shift, map_map. apply map_ext.
    intros k. rewrite S_INR. lra.
  - rewrite (scanCount_stop start Hgt), Nat.min_0_r. reflexivity.
Qed.

Lemma scanLatitudes_fuel (start : R) (extra : nat) :
  scanLatitudes (scanCount gridStep start maxLat + extra) gridStep start maxLat
  = scanLatitudes (scanCount gridStep start maxLat) gridStep start maxLat.
Proof.
  rewrite !scanLatitudes_progression. do 2 f_equal. lia.
Qed.

End ScanLatitudes.

(** ** Grid pass *)

Lemma segmentsAll_app P (l1 l2 : list THREE.Vector3) :
  segmentsAll P l1 -> segmentsAll P l2 -> segmentsAll P (l1 ++ l2).
Proof.
  induction 1 as [|p1 p2 rest Hp _ IH]; intros H2; cbn; [exact H2|].
  constructor; auto.
Qed.

Lemma segmentsAll_flat_map {A : Type} P (F : A -> list THREE.Vector3) (l : list A) :
  (forall a, a ∈ l -> segmentsAll P (F a)) -> segmentsAll P (flat_map F l).
Proof.
  induction l as [|a l IH]; intros Hall; cbn; [constructor|].
  apply segmentsAll_app.
  - apply Hall, elem_of_cons. now left.
  - apply IH. intros a' Hin. apply Hall, elem_of_cons. now right.
Qed.

Lemma segmentsAll_lookup P (l : list THREE.Vector3) :
  segmentsAll P l ->
  forall (k : nat) p1 p2,
    l !! (2 * k)%nat = Some p1 -> l !! (2 * k + 1)%nat = Some p2 -> P p1 p2.
Proof.
  induction 1 as [|q1 q2 rest Hq _ IH]; intros k p1 p2 H1 H2.
  - now rewrite lookup_nil in H1.
  - destruct k as [|k].
    + cbn in H1, H2. congruence.
    + replace (2 * S k)%nat with (S (S (2 * k))) in H1 by lia.
      replace (2 * S k + 1)%nat with (S (S (2 * k + 1))) in H2 by lia.
      cbn [lookup list_lookup] in H1, H2. eapply IH; eassumption.
Qed.

Lemma chords_points (c : PaletteValue) (lat : R) (xs : list R) :
  forall buf,
    points (chords c lat xs buf) = points buf ++ chordPoints lat xs
    /\ forall a, points (chords c lat (a :: xs) buf)
                 = points buf ++ chordPoints lat (a :: xs).
Proof.
  induction xs as [|b rest IH]; intros buf.
  - cbn. now rewrite app_nil_r.
  - split; [apply IH|].
    intros a. cbn [chords chordPoints].
    destruct (IH (pushSegment (latLngToVector3 lat a (GLOBE_RADIUS + 0.01))
                    (latLngToVector3 lat b (GLOBE_RADIUS + 0.01))
                    (dimmed THREE.r c) (dimmed THREE.g c) (dimmed THREE.b c) buf))
      as [-> _].
    cbn [points pushSegment]. now rewrite <- app_assoc.
Qed.

Lemma scanline_foldl_points (c : PaletteValue) (polygon : Ring) (lats : list R) :
  forall buf,
    points (foldl (scanline c polygon) buf lats)
    = points buf
      ++ flat_map (fun lat => chordPoints lat (sortAscending (intersectionsAt polygon lat)))
           lats.
Proof.
  induction lats as [|lat rest IH]; intros buf; cbn [foldl flat_map].
  - now rewrite app_nil_r.
  - rewrite IH. unfold scanline.
    destruct (chords_points c lat (sortAscending (intersectionsAt polygon lat)) buf)
      as [-> _].
    now rewrite <- app_assoc.
Qed.

Lemma chordPoints_segments (lat : R) (xs : list R) :
  segmentsAll (fun p1 p2 => exists lngA lngB : R,
                   p1 = latLngToVector3 lat lngA (GLOBE_RADIUS + 0.01)
                   /\ p2 = latLngToVector3 lat lngB (GLOBE_RADIUS + 0.01))
    (chordPoints lat xs)
  /\ forall a,
       segmentsAll (fun p1 p2 => exists lngA lngB : R,
                        p1 = latLngToVector3 lat lngA (GLOBE_RADIUS + 0.01)
                        /\ p2 = latLngToVector3 lat lngB (GLOBE_RADIUS + 0.01))
         (chordPoints lat (a :: xs)).
Proof.
  induction xs as [|b rest IH].
  - split; [|intros a]; constructor.
  - split; [apply IH|].
    intros a. cbn [chordPoints]. constructor; [now exists a, b | apply IH].
Qed.

Lemma segmentsAll_impl (P Q : THREE.Vector3 -> THREE.Vector3 -> Prop) l :
  (forall p1 p2, P p1 p2 -> Q p1 p2) -> segmentsAll P l -> segmentsAll Q l.
Proof. intros HPQ. induction 1; constructor; auto. Qed.

(** The bounding pass: the latitude bounds never leave what they started
    from on the wrong side, bound every vertex, and are attained unless
    they are still the initial values. *)
Lemma boundsStep_foldl_latitudes (polygon : Ring) :
  forall bd : Bounds,
    let out := foldl boundsStep bd polygon in
    (minY out <= minY bd /\ maxY bd <= maxY out)
    /\ (forall v, v ∈ polygon -> minY out <= v.2 <= maxY out)
    /\ (minY out = minY bd \/ exists v, v ∈ polygon /\ v.2 = minY out)
    /\ (maxY out = maxY bd \/ exists v, v ∈ polygon /\ v.2 = maxY out).
Proof.
  induction polygon as [|[lng lat] rest IH]; intros bd; cbn [foldl].
  - cbn zeta. split; [split; lra|]. split; [|split; now left].
    intros v Hv. now apply elem_of_nil in Hv.
  - specialize (IH (boundsStep bd (lng, lat))). cbn zeta in *.
    destruct IH as ((Hmin & Hmax) & Hall & Hlow & Hhigh).
    set (out := foldl boundsStep (boundsStep bd (lng, lat)) rest) in *.
    assert (Hstep : (minY (boundsStep bd (lng, lat)) <= minY bd
                     /\ minY (boundsStep bd (lng, lat)) <= lat
                     /\ (minY (boundsStep bd (lng, lat)) = minY bd
                         \/ minY (boundsStep bd (lng, lat)) = lat))
                    /\ (maxY bd <= maxY (boundsStep bd (lng, lat))
                        /\ lat <= maxY (boundsStep bd (lng, lat))
                        /\ (maxY (boundsStep bd (lng, lat)) = maxY bd
                            \/ maxY (boundsStep bd (lng, lat)) = lat))).
    { unfold boundsStep. cbn [minY maxY].
      destruct (decide (lat < minY bd)), (decide (lat > maxY bd));
        repeat split; try lra; auto. }
    destruct Hstep as ((Hs1 & Hs2 & Hs3) & (Ht1 & Ht2 & Ht3)).
    split; [split; lra|]. split; [|split].
    + intros v Hv. apply elem_of_cons in Hv as [->|Hv]; [cbn; lra | now apply Hall].
    + destruct Hlow as [Heq|(v & Hv & Heq)].
      * destruct Hs3 as [Hs3|Hs3]; [left; lra|].
        right. exists (lng, lat). split; [apply elem_of_cons; now left | cbn; lra].
      * right. exists v. split; [apply elem_of_cons; now right | exact Heq].
    + destruct Hhigh as [Heq|(v & Hv & Heq)].
      * destruct Ht3 as [Ht3|Ht3]; [left; lra|].
        right. exists (lng, lat). split; [apply elem_of_cons; now left | cbn; lra].
      * right. exists v. split; [apply elem_of_cons; now right | exact Heq].
Qed.

(** On a non-empty ring with latitudes in [-90, 90] the bounding pass finds
    the least and the greatest latitude of the ring. *)
Lemma bounds_latitudes (polygon : Ring) :
  polygon <> [] ->
  (forall v, v ∈ polygon -> -90 <= v.2 <= 90) ->
  (forall v, v ∈ polygon -> minY (bounds polygon) <= v.2 <= maxY (bounds polygon))
  /\ (exists v, v ∈ polygon /\ v.2 = minY (bounds polygon))
  /\ (exists v, v ∈ polygon /\ v.2 = maxY (bounds polygon)).
Proof.
  intros Hne Hrange. unfold bounds.
  destruct (boundsStep_foldl_latitudes polygon (mkBounds 180 (-180) 90 (-90)))
    as (_ & Hall & Hlow & Hhigh).
  cbn zeta in *. cbn [minY maxY] in Hlow, Hhigh.
  destruct polygon as [|v0 rest]; [contradiction|].
  assert (Hv0 : v0 ∈ v0 :: rest) by (apply elem_of_cons; now left).
  pose proof (Hall v0 Hv0) as Hb0. pose proof (Hrange v0 Hv0) as Hr0.
  split; [exact Hall|]. split.
  - destruct Hlow as [Heq|Hex]; [|exact Hex].
    exists v0. split; [exact Hv0 | lra].
  - destruct Hhigh as [Heq|Hex]; [|exact Hex].
    exists v0. split; [exact Hv0 | lra].
Qed.

Lemma firstLatitude_least (gridStep bound : R) :
  0 < gridStep -> leastMultipleFrom gridStep bound (firstLatitude gridStep bound).
Proof.
  intros Hpos. unfold leastMultipleFrom, firstLatitude.
  assert (Hq : bound / gridStep * gridStep = bound) by (field; lra).
  pose proof (Math_ceil_bounds (bound / gridStep)) as [Hlow _].
  split; [|split].
  - now exists (1 - up (- (bound / gridStep)))%Z.
  - rewrite <- Hq at 1. apply Rmult_le_compat_r; lra.
  - intros m Hm. apply Rmult_le_compat_r; [lra|].
    apply Math_ceil_least.
    apply Rmult_le_reg_r with gridStep; [exact Hpos | lra].
Qed.

Lemma gridLatitudes_progression (gridStep : R) (polygon : Ring) :
  0 < gridStep ->
  let start := firstLatitude gridStep (minY (bounds polygon)) in
  let n := scanCount gridStep start (maxY (bounds polygon)) in
  gridLatitudes gridStep polygon = map (fun k => start + INR k * gridStep) (seq 0 n).
Proof.
  intros Hpos. cbn zeta. unfold gridLatitudes.
  rewrite scanLatitudes_progression by exact Hpos.
  now rewrite Nat.min_id.
Qed.

Lemma gridLatitudes_range (gridStep : R) (polygon : Ring) (lat : R) :
  0 < gridStep ->
  lat ∈ gridLatitudes gridStep polygon ->
  isMultipleOf gridStep lat
  /\ minY (bounds polygon) <= lat <= maxY (bounds polygon).
Proof.
  intros Hpos Hin.
  rewrite gridLatitudes_progression in Hin by exact Hpos.
  apply list_elem_of_In, in_map_iff in Hin as (k & <- & Hk).
  apply in_seq in Hk.
  destruct (firstLatitude_least gridStep (minY (bounds polygon)) Hpos)
    as ([m Hm] & Hlow & _).
  assert (Hk' : (k < scanCount gridStep (firstLatitude gridStep (minY (bounds polygon)))
                       (maxY (bounds polygon)))%nat) by lia.
  apply scanCount_spec in Hk'; [|exact Hpos].
  pose proof (pos_INR k) as Hk0.
  assert (0 <= INR k * gridStep) by (apply Rmult_le_pos; lra).
  split; [|split; lra].
  exists (m + Z.of_nat k)%Z. rewrite plus_IZR, <- INR_IZR_INZ, Hm. ring.
Qed.

Lemma vertex_elem_of (polygon : Ring) (i : nat) :
  (i < length polygon)%nat -> vertex polygon i ∈ polygon.
Proof. intros Hi. apply list_elem_of_In, nth_In, Hi. Qed.

(** A line with a crossing lies between the latitudes of two vertices. *)
Lemma crossing_between_vertices (polygon : Ring) (lat : R) :
  intersectionsAt polygon lat <> [] ->
  exists v1 v2 : Position, v1 ∈ polygon /\ v2 ∈ polygon /\ v1.2 <= lat <= v2.2.
Proof.
  unfold intersectionsAt. rewrite intersectStep_foldl. cbn [app].
  destruct (filter (edgeCrosses polygon lat) (edgeIndices polygon)) as [|i rest] eqn:Hf;
    [intros Hne; now contradiction Hne|].
  intros _.
  assert (Hi : i ∈ filter (edgeCrosses polygon lat) (edgeIndices polygon)).
  { rewrite Hf. apply elem_of_cons. now left. }
  apply list_elem_of_filter in Hi as [Hcross Hi].
  apply list_elem_of_In, in_seq in Hi.
  assert (H1 : vertex polygon i ∈ polygon) by (apply vertex_elem_of; lia).
  assert (H2 : vertex polygon (i + 1) ∈ polygon) by (apply vertex_elem_of; lia).
  destruct Hcross as [[Ha Hb]|[Ha Hb]].
  - exists (vertex polygon i), (vertex polygon (i + 1)). repeat split; (assumption || lra).
  - exists (vertex polygon (i + 1)), (vertex polygon i). repeat split; (assumption || lra).
Qed.

Lemma sortAscending_nil_iff (xs : list R) : sortAscending xs = [] <-> xs = [].
Proof.
  unfold sortAscending. rewrite <- !Permutation_nil_r.
  now rewrite merge_sort_Permutation.
Qed.

Lemma gridPass_points (gridStep : R) (c : PaletteValue) (polygon : Ring)
  (buf : SegmentBuffer) :
  points (gridPass gridStep c polygon buf)
  = points buf ++ points (gridPass gridStep c polygon emptyBuffer).
Proof.
  unfold gridPass. now rewrite !scanline_foldl_points.
Qed.

Lemma gridPass_segments (gridStep : R) (c : PaletteValue) (polygon : Ring) :
  0 < gridStep ->
  segmentsAll (gridSegment gridStep polygon)
    (points (gridPass gridStep c polygon emptyBuffer)).
Proof.
  intros Hpos. unfold gridPass. rewrite scanline_foldl_points. cbn [points emptyBuffer app].
  apply segmentsAll_flat_map. intros lat Hlat.
  destruct (intersectionsAt polygon lat) as [|x xs] eqn:Hx.
  - replace (sortAscending []) with (@nil R) by (symmetry; now apply sortAscending_nil_iff).
    constructor.
  - destruct (gridLatitudes_range gridStep polygon lat Hpos Hlat) as [Hmult Hrange].
    assert (Hbetween : exists v1 v2 : Position,
               v1 ∈ polygon /\ v2 ∈ polygon /\ v1.2 <= lat <= v2.2).
    { apply crossing_between_vertices. now rewrite Hx. }
    eapply segmentsAll_impl; [|apply chordPoints_segments].
    intros p1 p2 (lngA & lngB & -> & ->).
    exists lat, lngA, lngB. repeat split; (assumption || apply Hrange).
Qed.

(** C4, as the code has it: for a positive step, the scanline loop starts
    at the smallest multiple of the step that is not below the minimum
    latitude of the bounding pass and visits that latitude plus k steps for
    as long as the value is not above the maximum latitude of the bounding
    pass (the maximum included); every grid segment, on any ring, has both
    end points projected from one and the same of these latitudes, which is
    a multiple of the step and lies between the latitudes of two vertices
    of the ring.  The bounding pass starts from 90 and -90: its minimum and
    maximum are the ring's least and greatest latitude when the ring is not
    empty and its latitudes are in [-90, 90]. *)
Theorem grid_segments_on_scanlines (gridStep : R) (c : PaletteValue) (polygon : Ring) :
  0 < gridStep ->
  let start := firstLatitude gridStep (minY (bounds polygon)) in
  let n := scanCount gridStep start (maxY (bounds polygon)) in
  leastMultipleFrom gridStep (minY (bounds polygon)) start
  /\ gridLatitudes gridStep polygon = map (fun k => start + INR k * gridStep) (seq 0 n)
  /\ (forall k : nat, (k < n)%nat <-> start + INR k * gridStep <= maxY (bounds polygon))
  /\ points (tessellate gridStep c polygon emptyBuffer)
     = points (outlinePass c polygon emptyBuffer)
       ++ points (gridPass gridStep c polygon emptyBuffer)
  /\ (forall (k : nat) (p1 p2 : THREE.Vector3),
       points (gridPass gridStep c polygon emptyBuffer) !! (2 * k)%nat = Some p1 ->
       points (gridPass gridStep c polygon emptyBuffer) !! (2 * k + 1)%nat = Some p2 ->
       gridSegment gridStep polygon p1 p2)
  /\ (polygon <> [] ->
      (forall v, v ∈ polygon -> -90 <= v.2 <= 90) ->
      (forall v, v ∈ polygon -> minY (bounds polygon) <= v.2 <= maxY (bounds polygon))
      /\ (exists v, v ∈ polygon /\ v.2 = minY (bounds polygon))
      /\ (exists v, v ∈ polygon /\ v.2 = maxY (bounds polygon))).
Proof.
  intros Hpos. cbn zeta. split; [|split; [|split; [|split; [|split]]]].
  - now apply firstLatitude_least.
  - now apply gridLatitudes_progression.
  - intros k. now apply scanCount_spec.
  - unfold tessellate. apply gridPass_points.
  - apply segmentsAll_lookup. now apply gridPass_segments.
  - apply bounds_latitudes.
Qed.

(** ** The square ring scenario *)

Lemma crosses_up (lat1 lat2 lat : R) :
  lat1 <= lat -> lat < lat2 -> crosses lat1 lat2 lat = true.
Proof. intros. apply crosses_straddles. left. lra. Qed.

Lemma crosses_same_side (lat1 lat2 lat : R) :
  (lat1 <= lat /\ lat2 <= lat) \/ (lat < lat1 /\ lat < lat2) ->
  crosses lat1 lat2 lat = false.
Proof.
  intros Hside. destruct (crosses lat1 lat2 lat) eqn:Hc; [|reflexivity].
  apply crosses_straddles in Hc.
  destruct Hside as [[? ?]|[? ?]], Hc as [[? ?]|[? ?]]; lra.
Qed.

Ltac decide_reals :=
  repeat match goal with
    | |- context [decide ?P] => rewrite (decide_True (P := P)) by lra
    | |- context [decide ?P] => rewrite (decide_False (P := P)) by lra
    end.

Lemma squareRing_bounds : bounds squareRing = mkBounds 0 10 0 10.
Proof.
  unfold bounds, squareRing. cbn [foldl]. unfold boundsStep.
  cbn [minX maxX minY maxY]. decide_reals. reflexivity.
Qed.

Lemma squareRing_gridLatitudes : gridLatitudes 5 squareRing = [0; 5; 10].
Proof.
  rewrite gridLatitudes_progression by lra. cbn zeta.
  rewrite squareRing_bounds. cbn [minY maxY].
  assert (Hstart : firstLatitude 5 0 = 0).
  { unfold firstLatitude. replace (0 / 5) with (IZR 0) by lra.
    rewrite Math_ceil_IZR. lra. }
  rewrite Hstart.
  assert (Hn : scanCount 5 0 10 = 3%nat).
  { unfold scanCount. replace ((10 - 0) / 5) with (IZR 2) by lra.
    now rewrite up_IZR. }
  rewrite Hn. cbn. repeat (f_equal; try lra).
Qed.

Lemma squareRing_crossings :
  intersectionsAt squareRing 0 = [10]
  /\ intersectionsAt squareRing 5 = [10]
  /\ intersectionsAt squareRing 10 = [].
Proof.
  unfold intersectionsAt, edgeIndices, squareRing. cbn [length Nat.sub seq foldl].
  unfold intersectStep, vertex. cbn [nth Nat.add].
  repeat split.
  - rewrite (crosses_same_side 0 0 0), (crosses_up 0 10 0),
      (crosses_same_side 10 10 0) by lra.
    cbn. f_equal. lra.
  - rewrite (crosses_same_side 0 0 5), (crosses_up 0 10 5),
      (crosses_same_side 10 10 5) by lra.
    cbn. f_equal. lra.
  - rewrite (crosses_same_side 0 0 10), (crosses_same_side 0 10 10),
      (crosses_same_side 10 10 10) by lra.
    reflexivity.
Qed.

Lemma squareRing_edges_at_5 :
  filter (edgeCrosses squareRing 5) (edgeIndices squareRing) = [1%nat].
Proof.
  unfold edgeIndices, squareRing. cbn [length Nat.sub seq].
  rewrite !filter_cons, filter_nil.
  rewrite (decide_False (P := edgeCrosses _ 5 0)), (decide_True (P := edgeCrosses _ 5 1)),
    (decide_False (P := edgeCrosses _ 5 2)); [reflexivity| | |];
    unfold edgeCrosses, straddles, vertex; cbn; lra.
Qed.

Lemma squareRing_gridPass (c : PaletteValue) (buf : SegmentBuffer) :
  gridPass 5 c squareRing buf = buf.
Proof.
  unfold gridPass. rewrite squareRing_gridLatitudes. cbn [foldl]. unfold scanline.
  destruct squareRing_crossings as (-> & -> & ->). reflexivity.
Qed.

(** With the step the source fixes, the ring gets the lines 0, 2, ..., 10;
    each line below 10 meets the one rising edge only, the line at 10
    meets none, and [addLines] adds the outline and nothing else. *)
Lemma squareRing_one_crossing (lat : R) :
  0 <= lat < 10 -> exists lng, intersectionsAt squareRing lat = [lng].
Proof.
  intros Hlat.
  unfold intersectionsAt, edgeIndices, squareRing. cbn [length Nat.sub seq foldl].
  unfold intersectStep, vertex. cbn [nth Nat.add].
  rewrite (crosses_same_side 0 0 lat), (crosses_up 0 10 lat),
    (crosses_same_side 10 10 lat) by lra.
  cbn. eauto.
Qed.

Lemma squareRing_addLines (c : PaletteValue) (buf : SegmentBuffer) :
  gridLatitudes 2 squareRing = [0; 2; 4; 6; 8; 10]
  /\ addLines c squareRing buf = outlinePass c squareRing buf.
Proof.
  assert (Hlats : gridLatitudes 2 squareRing = [0; 2; 4; 6; 8; 10]).
  { rewrite gridLatitudes_progression by lra. cbn zeta.
    rewrite squareRing_bounds. cbn [minY maxY].
    assert (Hstart : firstLatitude 2 0 = 0).
    { unfold firstLatitude. replace (0 / 2) with (IZR 0) by lra.
      rewrite Math_ceil_IZR. lra. }
    assert (Hn : scanCount 2 0 10 = 6%nat).
    { unfold scanCount. replace ((10 - 0) / 2) with (IZR 5) by lra.
      now rewrite up_IZR. }
    rewrite Hstart, Hn. cbn. repeat (f_equal; try lra). }
  split; [exact Hlats|].
  unfold addLines, tessellate, gridPass. rewrite Hlats. cbn [foldl]. unfold scanline.
  destruct (squareRing_one_crossing 0 ltac:(lra)) as [x0 ->].
  destruct (squareRing_one_crossing 2 ltac:(lra)) as [x2 ->].
  destruct (squareRing_one_crossing 4 ltac:(lra)) as [x4 ->].
  destruct (squareRing_one_crossing 6 ltac:(lra)) as [x6 ->].
  destruct (squareRing_one_crossing 8 ltac:(lra)) as [x8 ->].
  destruct squareRing_crossings as (_ & _ & ->).
  reflexivity.
Qed.

(** C3, as the code has it: on the open ring [(0,0), (10,0), (10,10),
    (0,10)] with step 5 the tessellator emits 3 outline segments and runs
    the scanline loop at latitudes 0, 5 and 10; at latitude 5 exactly one
    edge crosses, the one from (10,0) to (10,10), at longitude 10 (the side
    from (0,10) back to (0,0) is not an edge of the open traversal), the
    single crossing has no partner, and no chord is emitted: the grid pass
    adds nothing and the buffer holds the 3 outline segments only. *)
Theorem square_ring_scenario (c : PaletteValue) :
  segmentCount (outlinePass c squareRing emptyBuffer) = 3%nat
  /\ gridLatitudes 5 squareRing = [0; 5; 10]
  /\ filter (edgeCrosses squareRing 5) (edgeIndices squareRing) = [1%nat]
  /\ intersectionsAt squareRing 5 = [10]
  /\ scanline c squareRing emptyBuffer 5 = emptyBuffer
  /\ points (gridPass 5 c squareRing emptyBuffer) = []
  /\ segmentCount (tessellate 5 c squareRing emptyBuffer) = 3%nat.
Proof.
  assert (Hout : segmentCount (outlinePass c squareRing emptyBuffer) = 3%nat)
    by (rewrite outlinePass_segmentCount; reflexivity).
  destruct squareRing_crossings as (_ & H5 & _).
  refine (conj _ (conj _ (conj _ (conj _ (conj _ (conj _ _)))))).
  - exact Hout.
  - exact squareRing_gridLatitudes.
  - exact squareRing_edges_at_5.
  - exact H5.
  - unfold scanline. now rewrite H5.
  - now rewrite squareRing_gridPass.
  - unfold tessellate. now rewrite squareRing_gridPass.
Qed.

(** C3 as stated fails: at latitude 5 the ring does not have two crossing
    edges, and the line does not yield the chord from longitude 0 to
    longitude 10. *)
Lemma square_ring_no_chord :
  ~ (segmentCount (outlinePass (OwnColor DEFAULT_COLOR) squareRing emptyBuffer) = 3%nat
     /\ gridLatitudes 5 squareRing = [0; 5; 10]
     /\ length (intersectionsAt squareRing 5) = 2%nat
     /\ points (scanline (OwnColor DEFAULT_COLOR) squareRing emptyBuffer 5)
        = [latLngToVector3 5 0 (GLOBE_RADIUS + 0.01);
           latLngToVector3 5 10 (GLOBE_RADIUS + 0.01)]).
Proof.
  intros (_ & _ & Hlen & _).
  destruct squareRing_crossings as (_ & H5 & _).
  rewrite H5 in Hlen. discriminate.
Qed.

(** ** Rings that exercise the grid pass *)

Lemma boundsStep_box (a b c d lng lat : R) :
  boundsStep (mkBounds a b c d) (lng, lat)
  = mkBounds (Rmin lng a) (Rmax lng b) (Rmin lat c) (Rmax lat d).
Proof.
  unfold boundsStep, Rmin, Rmax. cbn [minX maxX minY maxY].
  destruct (decide (lng < a)), (Rle_dec lng a), (decide (lng > b)), (Rle_dec lng b),
    (decide (lat < c)), (Rle_dec lat c), (decide (lat > d)), (Rle_dec lat d);
    f_equal; lra.
Qed.

Lemma closedSquare_bounds : bounds closedSquare = mkBounds 0 10 0 10.
Proof.
  unfold bounds, closedSquare. cbn [foldl]. rewrite !boundsStep_box.
  f_equal; unfold Rmin, Rmax; repeat destruct (Rle_dec _ _); lra.
Qed.

Lemma closedSquare_gridLatitudes : gridLatitudes 5 closedSquare = [0; 5; 10].
Proof.
  rewrite gridLatitudes_progression by lra. cbn zeta.
  rewrite closedSquare_bounds. cbn [minY maxY].
  assert (Hstart : firstLatitude 5 0 = 0).
  { unfold firstLatitude. replace (0 / 5) with (IZR 0) by lra.
    rewrite Math_ceil_IZR. lra. }
  assert (Hn : scanCount 5 0 10 = 3%nat).
  { unfold scanCount. replace ((10 - 0) / 5) with (IZR 2) by lra.
    now rewrite up_IZR. }
  rewrite Hstart, Hn. cbn. repeat (f_equal; try lra).
Qed.

Lemma crosses_down (lat1 lat2 lat : R) :
  lat2 <= lat -> lat < lat1 -> crosses lat1 lat2 lat = true.
Proof. intros. apply crosses_straddles. right. lra. Qed.

Lemma closedSquare_crossings :
  intersectionsAt closedSquare 0 = [10; 0]
  /\ intersectionsAt closedSquare 5 = [10; 0]
  /\ intersectionsAt closedSquare 10 = [].
Proof.
  unfold intersectionsAt, edgeIndices, closedSquare. cbn [length Nat.sub seq foldl].
  unfold intersectStep, vertex. cbn [nth Nat.add].
  refine (conj _ (conj _ _)).
  - rewrite (crosses_same_side 0 0 0), (crosses_up 0 10 0),
      (crosses_same_side 10 10 0), (crosses_down 10 0 0) by lra.
    cbn. repeat (f_equal; try lra).
  - rewrite (crosses_same_side 0 0 5), (crosses_up 0 10 5),
      (crosses_same_side 10 10 5), (crosses_down 10 0 5) by lra.
    cbn. repeat (f_equal; try lra).
  - rewrite (crosses_same_side 0 0 10), (crosses_same_side 0 10 10),
      (crosses_same_side 10 10 10), (crosses_same_side 10 0 10) by lra.
    reflexivity.
Qed.

Lemma sortAscending_swap (a b : R) : b < a -> sortAscending [a; b] = [b; a].
Proof.
  intros Hlt. unfold sortAscending, merge_sort. cbn.
  rewrite decide_False by lra. reflexivity.
Qed.

(** Closed, the square gets the chord the open one lacks: on the lines at
    latitude 0 and 5, from longitude 0 to longitude 10. *)
Lemma closedSquare_gridPass_points (c : PaletteValue) :
  points (gridPass 5 c closedSquare emptyBuffer)
  = [latLngToVector3 0 0 (GLOBE_RADIUS + 0.01);
     latLngToVector3 0 10 (GLOBE_RADIUS + 0.01);
     latLngToVector3 5 0 (GLOBE_RADIUS + 0.01);
     latLngToVector3 5 10 (GLOBE_RADIUS + 0.01)].
Proof.
  unfold gridPass. rewrite scanline_foldl_points, closedSquare_gridLatitudes.
  cbn [flat_map points emptyBuffer app].
  destruct closedSquare_crossings as (-> & -> & ->).
  rewrite (sortAscending_swap 10 0) by lra.
  replace (sortAscending []) with (@nil R) by (symmetry; now apply sortAscending_nil_iff).
  reflexivity.
Qed.

Lemma highRing_bounds : bounds highRing = mkBounds 0 10 90 104.
Proof.
  unfold bounds, highRing. cbn [foldl]. rewrite !boundsStep_box.
  f_equal; unfold Rmin, Rmax; repeat destruct (Rle_dec _ _); lra.
Qed.

Lemma highRing_gridLatitudes :
  gridLatitudes 2 highRing = [90; 92; 94; 96; 98; 100; 102; 104].
Proof.
  rewrite gridLatitudes_progression by lra. cbn zeta.
  rewrite highRing_bounds. cbn [minY maxY].
  assert (Hstart : firstLatitude 2 90 = 90).
  { unfold firstLatitude. replace (90 / 2) with (IZR 45) by lra.
    rewrite Math_ceil_IZR. lra. }
  assert (Hn : scanCount 2 90 104 = 8%nat).
  { unfold scanCount. replace ((104 - 90) / 2) with (IZR 7) by lra.
    now rewrite up_IZR. }
  rewrite Hstart, Hn. cbn. repeat (f_equal; try lra).
Qed.

(** C4 as stated fails for a ring outside the latitudes of the globe: the
    ring [(0,100), (10,104)] has least latitude 100, itself a multiple of
    the step 2, but the bounding pass starts from 90 and never goes above
    it, so the scanlines start at 90 and run below the ring. *)
Lemma scanlines_start_below_ring :
  ~ (forall (polygon : Ring) (minLat : R),
        (forall v, v ∈ polygon -> minLat <= v.2) ->
        (exists v, v ∈ polygon /\ v.2 = minLat) ->
        leastMultipleFrom 2 minLat (firstLatitude 2 (minY (bounds polygon))))
  /\ (forall v, v ∈ highRing -> 100 <= v.2)
  /\ (exists v, v ∈ highRing /\ v.2 = 100)
  /\ minY (bounds highRing) = 90
  /\ gridLatitudes 2 highRing = [90; 92; 94; 96; 98; 100; 102; 104]
  /\ ~ leastMultipleFrom 2 100 (firstLatitude 2 (minY (bounds highRing))).
Proof.
  assert (Hlow : forall v, v ∈ highRing -> 100 <= v.2).
  { intros v Hv. unfold highRing in Hv.
    repeat (apply elem_of_cons in Hv as [->|Hv]; [cbn; lra|]).
    now apply elem_of_nil in Hv. }
  assert (Hmin : exists v, v ∈ highRing /\ v.2 = 100).
  { exists (0, 100). split; [apply elem_of_cons; now left | reflexivity]. }
  assert (Hstart : firstLatitude 2 (minY (bounds highRing)) = 90).
  { rewrite highRing_bounds. cbn [minY]. unfold firstLatitude.
    replace (90 / 2) with (IZR 45) by lra. rewrite Math_ceil_IZR. lra. }
  assert (Hnot : ~ leastMultipleFrom 2 100 (firstLatitude 2 (minY (bounds highRing)))).
  { rewrite Hstart. intros (_ & Hge & _). lra. }
  refine (conj _ (conj Hlow (conj Hmin (conj _ (conj highRing_gridLatitudes Hnot))))).
  - intros Hall. exact (Hnot (Hall highRing 100 Hlow Hmin)).
  - now rewrite highRing_bounds.
Qed.

Lemma grid_segments_on_scanlines_witness :
  0 < 5
  /\ (let gridStep := 5 in
      let c := OwnColor DEFAULT_COLOR in
      let polygon := closedSquare in
      let start := firstLatitude gridStep (minY (bounds polygon)) in
      let n := scanCount gridStep start (maxY (bounds polygon)) in
      leastMultipleFrom gridStep (minY (bounds polygon)) start
      /\ gridLatitudes gridStep polygon = map (fun k => start + INR k * gridStep) (seq 0 n)
      /\ (forall k : nat, (k < n)%nat <-> start + INR k * gridStep <= maxY (bounds polygon))
      /\ points (tessellate gridStep c polygon emptyBuffer)
         = points (outlinePass c polygon emptyBuffer)
           ++ points (gridPass gridStep c polygon emptyBuffer)
      /\ (forall (k : nat) (p1 p2 : THREE.Vector3),
           points (gridPass gridStep c polygon emptyBuffer) !! (2 * k)%nat = Some p1 ->
           points (gridPass gridStep c polygon emptyBuffer) !! (2 * k + 1)%nat = Some p2 ->
           gridSegment gridStep polygon p1 p2)
      /\ (polygon <> [] ->
          (forall v, v ∈ polygon -> -90 <= v.2 <= 90) ->
          (forall v, v ∈ polygon -> minY (bounds polygon) <= v.2 <= maxY (bounds polygon))
          /\ (exists v, v ∈ polygon /\ v.2 = minY (bounds polygon))
          /\ (exists v, v ∈ polygon /\ v.2 = maxY (bounds polygon))))
  /\ points (gridPass 5 (OwnColor DEFAULT_COLOR) closedSquare emptyBuffer) !! 2%nat
     = Some (latLngToVector3 5 0 (GLOBE_RADIUS + 0.01))
  /\ points (gridPass 5 (OwnColor DEFAULT_COLOR) closedSquare emptyBuffer) !! 3%nat
     = Some (latLngToVector3 5 10 (GLOBE_RADIUS + 0.01))
  /\ gridSegment 5 closedSquare
       (latLngToVector3 5 0 (GLOBE_RADIUS + 0.01))
       (latLngToVector3 5 10 (GLOBE_RADIUS + 0.01)).
Proof.
  assert (Hpos : 0 < 5) by lra.
  pose proof (grid_segments_on_scanlines 5 (OwnColor DEFAULT_COLOR) closedSquare Hpos)
    as Hgrid.
  assert (H2 : points (gridPass 5 (OwnColor DEFAULT_COLOR) closedSquare emptyBuffer)
               !! 2%nat = Some (latLngToVector3 5 0 (GLOBE_RADIUS + 0.01)))
    by now rewrite closedSquare_gridPass_points.
  assert (H3 : points (gridPass 5 (OwnColor DEFAULT_COLOR) closedSquare emptyBuffer)
               !! 3%nat = Some (latLngToVector3 5 10 (GLOBE_RADIUS + 0.01)))
    by now rewrite closedSquare_gridPass_points.
  refine (conj Hpos (conj Hgrid (conj H2 (conj H3 _)))).
  destruct Hgrid as (_ & _ & _ & _ & Hseg & _).
  exact (Hseg 1%nat _ _ H2 H3).
Defined.

(** * Further properties of the mesh builder *)

(** ** The builder only appends *)

Lemma bufferAppend_empty_r (buf : SegmentBuffer) : bufferAppend buf emptyBuffer = buf.
Proof. destruct buf. unfold bufferAppend. cbn. now rewrite !app_nil_r. Qed.

Lemma bufferAppend_empty_l (buf : SegmentBuffer) : bufferAppend emptyBuffer buf = buf.
Proof. now destruct buf. Qed.

Lemma bufferAppend_assoc (b1 b2 b3 : SegmentBuffer) :
  bufferAppend (bufferAppend b1 b2) b3 = bufferAppend b1 (bufferAppend b2 b3).
Proof. unfold bufferAppend. cbn. now rewrite <- !app_assoc. Qed.

Lemma appends_id : appends (fun buf => buf).
Proof. intros buf. now rewrite bufferAppend_empty_r. Qed.

Lemma appends_compose (f g : SegmentBuffer -> SegmentBuffer) :
  appends f -> appends g -> appends (fun buf => g (f buf)).
Proof.
  intros Hf Hg buf. rewrite (Hg (f buf)), (Hg (f emptyBuffer)), (Hf buf).
  apply bufferAppend_assoc.
Qed.

Lemma appends_foldl {A : Type} (f : SegmentBuffer -> A -> SegmentBuffer) (l : list A) :
  (forall a, appends (fun buf => f buf a)) -> appends (fun buf => foldl f buf l).
Proof.
  intros Hf. induction l as [|a l IH] using rev_ind.
  - apply appends_id.
  - intros buf. rewrite !foldl_app. cbn [foldl].
    apply (appends_compose (fun b => foldl f b l) (fun b => f b a) IH (Hf a)).
Qed.

Lemma appends_pushSegment p1 p2 c1 c2 c3 : appends (pushSegment p1 p2 c1 c2 c3).
Proof. intros buf. reflexivity. Qed.

Lemma appends_chords (c : PaletteValue) (lat : R) (xs : list R) :
  appends (chords c lat xs) /\ forall a, appends (chords c lat (a :: xs)).
Proof.
  induction xs as [|b rest IH].
  - split; [|intros a]; apply appends_id.
  - split; [apply IH|].
    intros a. cbn [chords].
    apply (appends_compose (pushSegment _ _ _ _ _) (chords c lat rest));
      [apply appends_pushSegment | apply IH].
Qed.

Lemma appends_outlinePass (c : PaletteValue) (polygon : Ring) :
  appends (outlinePass c polygon).
Proof.
  unfold outlinePass. apply appends_foldl.
  intros i. unfold outlineStep. apply appends_pushSegment.
Qed.

Lemma appends_gridPass (gridStep : R) (c : PaletteValue) (polygon : Ring) :
  appends (gridPass gridStep c polygon).
Proof.
  unfold gridPass. apply appends_foldl.
  intros lat. unfold scanline. apply appends_chords.
Qed.

(** X1: the tessellator leaves what the buffer holds in front and adds behind
    it what it emits on an empty buffer, the outline first and the grid
    after it. *)
Theorem tessellate_appends (gridStep : R) (c : PaletteValue) (polygon : Ring)
  (buf : SegmentBuffer) :
  tessellate gridStep c polygon buf
  = bufferAppend buf
      (bufferAppend (outlinePass c polygon emptyBuffer)
                    (gridPass gridStep c polygon emptyBuffer)).
Proof.
  unfold tessellate.
  rewrite (appends_gridPass gridStep c polygon (outlinePass c polygon buf)).
  rewrite (appends_outlinePass c polygon buf).
  apply bufferAppend_assoc.
Qed.

Lemma appends_tessellate (gridStep : R) (c : PaletteValue) (polygon : Ring) :
  appends (tessellate gridStep c polygon).
Proof.
  unfold tessellate.
  apply (appends_compose (outlinePass c polygon) (gridPass gridStep c polygon));
    [apply appends_outlinePass | apply appends_gridPass].
Qed.

Lemma featureStep_appends (feature : Feature) (buf : SegmentBuffer) :
  featureStep feature buf
  = option_map (bufferAppend buf) (featureStep feature emptyBuffer).
Proof.
  unfold featureStep.
  destruct (geometry feature) as [[[coords|]|[coords|]|t]|];
    destruct (properties feature) as [props|]; try reflexivity; cbn [option_map].
  - f_equal.
    apply (appends_foldl (fun b polygon => addLines _ polygon b)).
    intros polygon. apply appends_tessellate.
  - f_equal.
    apply (appends_foldl
             (fun b multiPolygon =>
                foldl (fun b' polygon => addLines _ polygon b') b multiPolygon)).
    intros multiPolygon.
    apply (appends_foldl (fun b polygon => addLines _ polygon b)).
    intros polygon. apply appends_tessellate.
  - now rewrite bufferAppend_empty_r.
Qed.

Lemma forEachFeature_appends (features : list Feature) :
  forall buf,
    forEachFeature features buf
    = option_map (bufferAppend buf) (forEachFeature features emptyBuffer).
Proof.
  induction features as [|feature rest IH]; intros buf; cbn [forEachFeature].
  - cbn. now rewrite bufferAppend_empty_r.
  - rewrite (featureStep_appends feature buf).
    destruct (featureStep feature emptyBuffer) as [b1|]; [|reflexivity].
    cbn [option_map]. rewrite (IH (bufferAppend buf b1)), (IH b1).
    destruct (forEachFeature rest emptyBuffer) as [b2|]; [|reflexivity].
    cbn. now rewrite bufferAppend_assoc.
Qed.

(** X2: the build of two collections one after the other is the build of the
    first followed by the build of the second, and fails when one of the
    two fails. *)
Theorem build_app (fs1 fs2 : list Feature) :
  build (fs1 ++ fs2)
  = match build fs1, build fs2 with
    | Some b1, Some b2 => Some (bufferAppend b1 b2)
    | _, _ => None
    end.
Proof.
  unfold build. rewrite forEachFeature_app.
  destruct (forEachFeature fs1 emptyBuffer) as [b1|]; [|reflexivity].
  rewrite (forEachFeature_appends fs2 b1).
  destruct (forEachFeature fs2 emptyBuffer); reflexivity.
Qed.

(** X3: a MultiPolygon is built as the Polygon that has all its rings in one
    list: the polygons of a MultiPolygon are not kept apart. *)
Theorem multiPolygon_flattened (coords : list (list Ring)) (props : Properties)
  (buf : SegmentBuffer) :
  featureStep (mkFeature (Some (MultiPolygon (Some coords))) (Some props)) buf
  = featureStep (mkFeature (Some (Polygon (Some (concat coords)))) (Some props)) buf.
Proof.
  unfold featureStep. cbn [geometry properties]. f_equal.
  revert buf. induction coords as [|multiPolygon rest IH]; intros buf; [reflexivity|].
  cbn [concat foldl]. rewrite foldl_app. apply IH.
Qed.

(** ** Degenerate rings *)

Lemma filter_none {A : Type} (P : A -> Prop) `{forall x, Decision (P x)} (l : list A) :
  (forall x, x ∈ l -> ~ P x) -> filter P l = [].
Proof.
  induction l as [|a l IH]; intros Hnone; [reflexivity|].
  rewrite filter_cons, decide_False.
  - apply IH. intros x Hx. apply Hnone, elem_of_cons. now right.
  - apply Hnone, elem_of_cons. now left.
Qed.

Lemma scanline_no_crossing (c : PaletteValue) (polygon : Ring) (buf : SegmentBuffer)
  (lat : R) :
  intersectionsAt polygon lat = [] -> scanline c polygon buf lat = buf.
Proof.
  intros Hnone. unfold scanline.
  now rewrite (proj2 (sortAscending_nil_iff _) Hnone).
Qed.

Lemma gridPass_no_crossing (gridStep : R) (c : PaletteValue) (polygon : Ring)
  (buf : SegmentBuffer) :
  (forall lat, intersectionsAt polygon lat = []) ->
  gridPass gridStep c polygon buf = buf.
Proof.
  intros Hnone. unfold gridPass.
  induction (gridLatitudes gridStep polygon) as [|lat rest IH] using rev_ind;
    [reflexivity|].
  rewrite foldl_app. cbn [foldl]. rewrite IH.
  now apply scanline_no_crossing.
Qed.

(** X4: a ring of fewer than two vertices adds nothing to the buffer, whatever
    the step: no outline segment and no grid segment. *)
Theorem tessellate_short_ring (gridStep : R) (c : PaletteValue) (polygon : Ring)
  (buf : SegmentBuffer) :
  (length polygon < 2)%nat -> tessellate gridStep c polygon buf = buf.
Proof.
  intros Hshort.
  assert (Hedges : edgeIndices polygon = []).
  { unfold edgeIndices. now replace (length polygon - 1)%nat with 0%nat by lia. }
  unfold tessellate, outlinePass. rewrite Hedges. cbn [foldl].
  apply gridPass_no_crossing. intros lat.
  unfold intersectionsAt. now rewrite Hedges.
Qed.

Lemma tessellate_short_ring_witness :
  (length [(3, 4)] < 2)%nat
  /\ tessellate 2 (OwnColor DEFAULT_COLOR) [(3, 4)] emptyBuffer = emptyBuffer.
Proof.
  assert (H : (length [(3, 4)] < 2)%nat) by (cbn; lia).
  split; [exact H|].
  exact (tessellate_short_ring 2 (OwnColor DEFAULT_COLOR) [(3, 4)] emptyBuffer H).
Defined.

(** X5: a ring whose vertices all have the same latitude gets no grid segment:
    no edge passes the crossing test on any line, so the tessellator emits
    the outline only. *)
Theorem tessellate_level_ring (gridStep : R) (c : PaletteValue) (polygon : Ring)
  (buf : SegmentBuffer) (level : R) :
  (forall v, v ∈ polygon -> v.2 = level) ->
  tessellate gridStep c polygon buf = outlinePass c polygon buf.
Proof.
  intros Hlevel. unfold tessellate.
  apply gridPass_no_crossing. intros lat.
  unfold intersectionsAt. rewrite intersectStep_foldl. cbn [app].
  replace (filter (edgeCrosses polygon lat) (edgeIndices polygon)) with (@nil nat);
    [reflexivity|].
  symmetry. apply filter_none. intros i Hi.
  apply list_elem_of_In, in_seq in Hi.
  unfold edgeCrosses.
  rewrite (Hlevel (vertex polygon i)) by (apply vertex_elem_of; lia).
  rewrite (Hlevel (vertex polygon (i + 1))) by (apply vertex_elem_of; lia).
  intros [[? ?]|[? ?]]; lra.
Qed.

Lemma tessellate_level_ring_witness :
  (forall v : Position, v ∈ [(0, 1); (5, 1)] -> v.2 = 1)
  /\ tessellate 2 (OwnColor DEFAULT_COLOR) [(0, 1); (5, 1)] emptyBuffer
     = outlinePass (OwnColor DEFAULT_COLOR) [(0, 1); (5, 1)] emptyBuffer.
Proof.
  assert (H : forall v : Position, v ∈ [(0, 1); (5, 1)] -> v.2 = 1).
  { intros v Hv. repeat (apply elem_of_cons in Hv as [->|Hv]; [reflexivity|]).
    now apply elem_of_nil in Hv. }
  split; [exact H|].
  exact (tessellate_level_ring 2 (OwnColor DEFAULT_COLOR) [(0, 1); (5, 1)]
           emptyBuffer 1 H).
Defined.

(** ** Crossings and chords *)

Lemma ratio_unit (n d : R) : 0 <= n <= d -> 0 < d -> 0 <= n / d <= 1.
Proof.
  intros [Hn Hd] Hpos.
  assert (Hinv : 0 < / d) by now apply Rinv_0_lt_compat.
  unfold Rdiv. split.
  - apply Rmult_le_pos; lra.
  - replace 1 with (d * / d) by (field; lra).
    apply Rmult_le_compat_r; lra.
Qed.

Lemma interpolation_between (lng1 lat1 lng2 lat2 lat : R) :
  straddles lat1 lat2 lat ->
  Rmin lng1 lng2 <= lng1 + (lat - lat1) * (lng2 - lng1) / (lat2 - lat1)
                 <= Rmax lng1 lng2.
Proof.
  intros Hs.
  set (t := (lat - lat1) / (lat2 - lat1)).
  assert (Ht : 0 <= t <= 1).
  { unfold t. destruct Hs as [[H1 H2]|[H1 H2]].
    - apply ratio_unit; lra.
    - replace ((lat - lat1) / (lat2 - lat1)) with ((lat1 - lat) / (lat1 - lat2))
        by (field; lra).
      apply ratio_unit; lra. }
  replace (lng1 + (lat - lat1) * (lng2 - lng1) / (lat2 - lat1))
    with (lng1 + t * (lng2 - lng1)) by (unfold t; field; destruct Hs; lra).
  unfold Rmin, Rmax. destruct (Rle_dec lng1 lng2); split; nra.
Qed.

(** X6: the crossing longitude computed for an edge that passes the test lies
    between the longitudes of the edge's end points, and the point
    (longitude, [lat]) is on the line through them. *)
Theorem crossing_within_edge (lng1 lat1 lng2 lat2 lat : R) :
  crosses lat1 lat2 lat = true ->
  let lng := lng1 + (lat - lat1) * (lng2 - lng1) / (lat2 - lat1) in
  Rmin lng1 lng2 <= lng <= Rmax lng1 lng2
  /\ (lng - lng1) * (lat2 - lat1) = (lat - lat1) * (lng2 - lng1).
Proof.
  intros Hc. apply crosses_straddles in Hc. cbn zeta. split.
  - now apply interpolation_between.
  - field. destruct Hc; lra.
Qed.

Lemma crossing_within_edge_witness :
  crosses 0 10 5 = true
  /\ (let lng := 2 + (5 - 0) * (8 - 2) / (10 - 0) in
      Rmin 2 8 <= lng <= Rmax 2 8
      /\ (lng - 2) * (10 - 0) = (5 - 0) * (8 - 2)).
Proof.
  assert (H : crosses 0 10 5 = true) by (apply crosses_up; lra).
  split; [exact H | exact (crossing_within_edge 2 0 8 10 5 H)].
Defined.

Lemma chordPoints_length (lat : R) (xs : list R) :
  length (chordPoints lat xs) = (2 * (length xs / 2))%nat
  /\ forall a, length (chordPoints lat (a :: xs)) = (2 * (length (a :: xs) / 2))%nat.
Proof.
  induction xs as [|b rest IH].
  - split; [|intros a]; reflexivity.
  - split; [apply IH|].
    intros a. cbn [chordPoints length]. destruct IH as [IH _]. rewrite IH.
    replace (S (S (length rest))) with (length rest + 1 * 2)%nat by lia.
    rewrite Nat.div_add by lia. lia.
Qed.

(** X7: a scanline with n crossings yields n/2 chords, rounded down (a
    crossing left over is dropped), and a ring has at most one crossing per
    edge on a line. *)
Theorem scanline_chord_count (c : PaletteValue) (polygon : Ring) (lat : R) :
  segmentCount (scanline c polygon emptyBuffer lat)
  = (length (intersectionsAt polygon lat) / 2)%nat
  /\ (length (intersectionsAt polygon lat) <= length polygon - 1)%nat.
Proof.
  split.
  - unfold segmentCount, scanline.
    destruct (chords_points c lat (sortAscending (intersectionsAt polygon lat))
                emptyBuffer) as [-> _].
    cbn [points emptyBuffer app].
    destruct (chordPoints_length lat (sortAscending (intersectionsAt polygon lat)))
      as [-> _].
    destruct (sortAscending_sorted (intersectionsAt polygon lat)) as [_ Hperm].
    rewrite (Permutation_length Hperm).
    rewrite Nat.mul_comm, Nat.div_mul; lia.
  - unfold intersectionsAt. rewrite intersectStep_foldl. cbn [app].
    rewrite length_map.
    etransitivity; [apply length_filter|].
    unfold edgeIndices. now rewrite length_seq.
Qed.

Lemma intersectionsAt_elem (polygon : Ring) (lat lng : R) :
  lng ∈ intersectionsAt polygon lat ->
  exists i : nat,
    (i < length polygon - 1)%nat
    /\ edgeCrosses polygon lat i
    /\ lng = crossingLongitude polygon lat i.
Proof.
  unfold intersectionsAt. rewrite intersectStep_foldl. cbn [app].
  intros Hin. apply list_elem_of_In, in_map_iff in Hin as (i & <- & Hi).
  apply list_elem_of_In, list_elem_of_filter in Hi as [Hcross Hi].
  apply list_elem_of_In, in_seq in Hi.
  exists i. repeat split; (lia || assumption).
Qed.

Lemma crossing_between_longitudes (polygon : Ring) (lat lng : R) :
  lng ∈ intersectionsAt polygon lat ->
  exists v1 v2 : Position, v1 ∈ polygon /\ v2 ∈ polygon /\ v1.1 <= lng <= v2.1.
Proof.
  intros Hin. apply intersectionsAt_elem in Hin as (i & Hi & Hcross & ->).
  assert (H1 : vertex polygon i ∈ polygon) by (apply vertex_elem_of; lia).
  assert (H2 : vertex polygon (i + 1) ∈ polygon) by (apply vertex_elem_of; lia).
  unfold edgeCrosses, crossingLongitude in *.
  destruct (vertex polygon i) as [lng1 lat1], (vertex polygon (i + 1)) as [lng2 lat2].
  cbn [snd] in Hcross.
  pose proof (interpolation_between lng1 lat1 lng2 lat2 lat Hcross) as Hb.
  unfold Rmin, Rmax in Hb. destruct (Rle_dec lng1 lng2).
  - exists (lng1, lat1), (lng2, lat2). cbn. repeat split; (assumption || lra).
  - exists (lng2, lat2), (lng1, lat1). cbn. repeat split; (assumption || lra).
Qed.

Lemma chordPoints_sorted_segments (lat : R) (all : list R) (xs : list R) :
  ((forall x, x ∈ xs -> x ∈ all) -> Sorted Rle xs ->
   segmentsAll (fun p1 p2 => exists lngA lngB : R,
                    lngA ∈ all /\ lngB ∈ all /\ lngA <= lngB
                    /\ p1 = latLngToVector3 lat lngA (GLOBE_RADIUS + 0.01)
                    /\ p2 = latLngToVector3 lat lngB (GLOBE_RADIUS + 0.01))
     (chordPoints lat xs))
  /\ forall a,
       (forall x, x ∈ a :: xs -> x ∈ all) -> Sorted Rle (a :: xs) ->
       segmentsAll (fun p1 p2 => exists lngA lngB : R,
                        lngA ∈ all /\ lngB ∈ all /\ lngA <= lngB
                        /\ p1 = latLngToVector3 lat lngA (GLOBE_RADIUS + 0.01)
                        /\ p2 = latLngToVector3 lat lngB (GLOBE_RADIUS + 0.01))
         (chordPoints lat (a :: xs)).
Proof.
  induction xs as [|b rest IH].
  - split; [intros _ _ | intros a _ _]; constructor.
  - split; [apply IH|].
    intros a Hsub Hsorted. cbn [chordPoints].
    apply Sorted_inv in Hsorted as [Hrest Hhd].
    apply HdRel_inv in Hhd.
    apply Sorted_inv in Hrest as [Hrest _].
    constructor.
    + exists a, b. repeat split; try assumption.
      * apply Hsub, elem_of_cons. now left.
      * apply Hsub, elem_of_cons. right. apply elem_of_cons. now left.
    + apply IH; [|exact Hrest].
      intros x Hx. apply Hsub. apply elem_of_cons. right. apply elem_of_cons. now right.
Qed.

Lemma gridPass_chords_within (gridStep : R) (c : PaletteValue) (polygon : Ring) :
  segmentsAll (chordWithin polygon)
    (points (gridPass gridStep c polygon emptyBuffer)).
Proof.
  unfold gridPass. rewrite scanline_foldl_points. cbn [points emptyBuffer app].
  apply segmentsAll_flat_map. intros lat _.
  destruct (sortAscending_sorted (intersectionsAt polygon lat)) as [Hsorted Hperm].
  eapply segmentsAll_impl;
    [|apply (chordPoints_sorted_segments lat (intersectionsAt polygon lat));
      [|exact Hsorted]].
  - intros p1 p2 (lngA & lngB & HA & HB & Hle & -> & ->).
    destruct (crossing_between_longitudes polygon lat lngA HA) as (v1 & _ & Hv1 & _ & H1 & _).
    destruct (crossing_between_longitudes polygon lat lngB HB) as (_ & v2 & _ & Hv2 & _ & H2).
    exists lat, lngA, lngB. repeat split; try assumption.
    exists v1, v2. repeat split; assumption.
  - intros x Hx. now rewrite <- Hperm.
Qed.

(** X8: every grid segment runs along one latitude from a smaller to a
    greater (or equal) longitude, and both longitudes lie between the
    longitudes of two vertices of the ring: the grid never leaves the
    ring's extent in longitude.  This holds for any step. *)
Theorem grid_chords_within_ring (gridStep : R) (c : PaletteValue) (polygon : Ring)
  (k : nat) (p1 p2 : THREE.Vector3) :
  points (gridPass gridStep c polygon emptyBuffer) !! (2 * k)%nat = Some p1 ->
  points (gridPass gridStep c polygon emptyBuffer) !! (2 * k + 1)%nat = Some p2 ->
  chordWithin polygon p1 p2.
Proof.
  apply segmentsAll_lookup, gridPass_chords_within.
Qed.

Lemma grid_chords_within_ring_witness :
  chordWithin closedSquare
    (latLngToVector3 5 0 (GLOBE_RADIUS + 0.01))
    (latLngToVector3 5 10 (GLOBE_RADIUS + 0.01)).
Proof.
  apply (grid_chords_within_ring 5 (OwnColor DEFAULT_COLOR) closedSquare 1);
    now rewrite closedSquare_gridPass_points.
Defined.

(** ** Colours *)

Lemma outlineStep_foldl_colors (c : PaletteValue) (polygon : Ring) (indices : list nat) :
  forall buf : SegmentBuffer,
    colors (foldl (outlineStep c polygon) buf indices)
    = colors buf ++ concat (replicate (2 * length indices) (fullTriple c)).
Proof.
  induction indices as [|i rest IH]; intros buf; cbn [foldl length].
  - cbn. now rewrite app_nil_r.
  - rewrite IH. unfold outlineStep. cbn [colors pushSegment].
    replace (2 * S (length rest))%nat with (2 + 2 * length rest)%nat by lia.
    rewrite replicate_add, concat_app, <- app_assoc. reflexivity.
Qed.

Lemma chords_colors (c : PaletteValue) (lat : R) (xs : list R) :
  (forall buf,
      colors (chords c lat xs buf)
      = colors buf ++ concat (replicate (length (chordPoints lat xs)) (dimTriple c)))
  /\ forall a buf,
       colors (chords c lat (a :: xs) buf)
       = colors buf
         ++ concat (replicate (length (chordPoints lat (a :: xs))) (dimTriple c)).
Proof.
  induction xs as [|b rest IH].
  - split; intros; cbn; now rewrite app_nil_r.
  - split; [apply IH|].
    intros a buf. cbn [chords chordPoints length]. destruct IH as [IH _].
    rewrite IH. cbn [colors pushSegment].
    rewrite <- app_assoc. reflexivity.
Qed.

Lemma scanline_foldl_colors (c : PaletteValue) (polygon : Ring) (lats : list R) :
  forall buf,
    colors (foldl (scanline c polygon) buf lats)
    = colors buf
      ++ concat (replicate
                   (length (flat_map
                              (fun lat => chordPoints lat
                                            (sortAscending (intersectionsAt polygon lat)))
                              lats))
                   (dimTriple c)).
Proof.
  induction lats as [|lat rest IH]; intros buf; cbn [foldl flat_map].
  - cbn. now rewrite app_nil_r.
  - rewrite IH. unfold scanline.
    destruct (chords_colors c lat (sortAscending (intersectionsAt polygon lat)))
      as [-> _].
    now rewrite length_app, replicate_add, concat_app, <- app_assoc.
Qed.

(** X9: the colour array of a ring's contribution is aligned with its points:
    three channels per point, the continent colour's own channels for
    every outline point, then the same channels times 0.3 for every grid
    point. *)
Theorem tessellate_colors (gridStep : R) (c : PaletteValue) (polygon : Ring) :
  colors (tessellate gridStep c polygon emptyBuffer)
  = concat (replicate (length (points (outlinePass c polygon emptyBuffer)))
              (fullTriple c))
    ++ concat (replicate (length (points (gridPass gridStep c polygon emptyBuffer)))
                 (dimTriple c)).
Proof.
  unfold tessellate, gridPass at 1, outlinePass at 1.
  rewrite scanline_foldl_colors, outlineStep_foldl_colors. cbn [colors emptyBuffer app].
  f_equal.
  - rewrite outlinePass_points. cbn [points emptyBuffer app].
    now rewrite pairs_length.
  - unfold gridPass. rewrite scanline_foldl_points. reflexivity.
Qed.

(** * Further properties of the projector *)

(** X10: at latitude 90 every longitude is projected to the one point
    (0, radius, 0), at latitude -90 to (0, -radius, 0). *)
Theorem latLngToVector3_poles (lng radius : R) :
  latLngToVector3 90 lng radius = THREE.mkVector3 0 radius 0
  /\ latLngToVector3 (-90) lng radius = THREE.mkVector3 0 (- radius) 0.
Proof.
  unfold latLngToVector3. split.
  - replace ((90 - 90) * (PI / 180)) with 0 by field.
    rewrite sin_0, cos_0. f_equal; ring.
  - replace ((90 - -90) * (PI / 180)) with PI by field.
    rewrite sin_PI, cos_PI. f_equal; ring.
Qed.

(** X11: the projection has period 360 in the longitude, so the longitudes -180
    and 180 give the same point. *)
Theorem latLngToVector3_antimeridian (lat lng radius : R) :
  latLngToVector3 lat (lng + 360) radius = latLngToVector3 lat lng radius
  /\ latLngToVector3 lat (-180) radius = latLngToVector3 lat 180 radius.
Proof.
  assert (Hperiod : forall l, latLngToVector3 lat (l + 360) radius
                              = latLngToVector3 lat l radius).
  { intros l. unfold latLngToVector3.
    replace ((l + 360 + 180) * (PI / 180)) with ((l + 180) * (PI / 180) + 2 * PI)
      by field.
    rewrite sin_plus, cos_plus, sin_2PI, cos_2PI. f_equal; ring. }
  split; [apply Hperiod|].
  rewrite <- (Hperiod (-180)). f_equal. lra.
Qed.

(** X12: a circle of latitude is projected into the horizontal plane at height
    radius * sin(lat), on the circle of radius radius * cos(lat) around the
    vertical axis (angles in degrees). *)
Theorem latLngToVector3_parallel (lat lng radius : R) :
  let p := latLngToVector3 lat lng radius in
  THREE.y p = radius * sin (lat * PI / 180)
  /\ THREE.x p * THREE.x p + THREE.z p * THREE.z p
     = (radius * cos (lat * PI / 180)) * (radius * cos (lat * PI / 180)).
Proof.
  cbn. replace ((90 - lat) * (PI / 180)) with (PI / 2 - lat * PI / 180) by field.
  rewrite sin_shift, cos_shift.
  set (theta := (lng + 180) * (PI / 180)).
  pose proof (sin2_cos2 theta) as Ht. unfold Rsqr in Ht.
  split; [reflexivity|].
  replace (- radius * cos (lat * PI / 180) * cos theta
           * (- radius * cos (lat * PI / 180) * cos theta)
           + radius * cos (lat * PI / 180) * sin theta
             * (radius * cos (lat * PI / 180) * sin theta))
    with (radius * cos (lat * PI / 180) * (radius * cos (lat * PI / 180))
          * (sin theta * sin theta + cos theta * cos theta)) by ring.
  rewrite Ht. ring.
Qed.

(** * The simulated air-quality reading *)

Lemma Math_floor_bounds (v : R) : Math_floor v <= v < Math_floor v + 1.
Proof.
  unfold Math_floor. destruct (archimed v) as [Hgt Hle].
  rewrite minus_IZR. split; lra.
Qed.

(** The floor of a value in [lo, hi + 1) is an integer from lo to hi. *)
Lemma Math_floor_range (v : R) (lo hi : Z) :
  IZR lo <= v < IZR hi + 1 ->
  exists n : Z, Math_floor v = IZR n /\ (lo <= n <= hi)%Z.
Proof.
  intros [Hlo Hhi]. pose proof (Math_floor_bounds v) as [Hf1 Hf2].
  unfold Math_floor in *. exists (up v - 1)%Z. split; [reflexivity|].
  split.
  - assert (lo < up v - 1 + 1)%Z; [|lia].
    apply lt_IZR. rewrite plus_IZR. lra.
  - assert (up v - 1 < hi + 1)%Z; [|lia].
    apply lt_IZR. rewrite plus_IZR. lra.
Qed.

Lemma remainder_range (a b : R) : 0 <= a -> 0 < b -> 0 <= remainder a b < b.
Proof.
  intros Ha Hb. unfold remainder, Math_trunc.
  assert (Hq : 0 <= a / b).
  { unfold Rdiv. apply Rmult_le_pos; [lra|]. left. now apply Rinv_0_lt_compat. }
  rewrite decide_True by exact Hq.
  pose proof (Math_floor_bounds (a / b)) as [Hf1 Hf2].
  assert (Hab : a / b * b = a) by (field; lra).
  split; nra.
Qed.

Lemma getSimulatedAQI_aqi (lat lng : R) :
  aqi (getSimulatedAQI lat lng)
  = Math_floor (remainder (Rabs (sin lat * 1000 + cos lng * 1000)) 150 + 10).
Proof.
  unfold getSimulatedAQI. cbn zeta.
  repeat (destruct (decide _)); reflexivity.
Qed.

Lemma getSimulatedAQI_pm25 (lat lng : R) :
  pm25 (getSimulatedAQI lat lng) = Math_floor (aqi (getSimulatedAQI lat lng) * 0.45).
Proof.
  rewrite getSimulatedAQI_aqi. unfold getSimulatedAQI. cbn zeta.
  repeat (destruct (decide _)); reflexivity.
Qed.

Lemma getSimulatedAQI_aqi_range (lat lng : R) :
  exists n : Z, aqi (getSimulatedAQI lat lng) = IZR n /\ (10 <= n <= 159)%Z.
Proof.
  rewrite getSimulatedAQI_aqi. apply Math_floor_range.
  pose proof (remainder_range (Rabs (sin lat * 1000 + cos lng * 1000)) 150
                (Rabs_pos _) ltac:(lra)).
  lra.
Qed.

(** X13: whatever the position, the reading is a whole number from 10 to 159,
    and the PM2.5 value is a whole number from 4 to 71, the reading times
    0.45 rounded down. *)
Theorem getSimulatedAQI_range (lat lng : R) :
  let reading := getSimulatedAQI lat lng in
  (exists n : Z, aqi reading = IZR n /\ (10 <= n <= 159)%Z)
  /\ (exists m : Z, pm25 reading = IZR m /\ (4 <= m <= 71)%Z)
  /\ pm25 reading <= aqi reading * 0.45 < pm25 reading + 1.
Proof.
  cbn zeta. destruct (getSimulatedAQI_aqi_range lat lng) as (n & Hn & Hrange).
  split; [now exists n|]. rewrite getSimulatedAQI_pm25. split.
  - apply Math_floor_range. rewrite Hn.
    assert (10 <= IZR n) by (apply IZR_le; lia).
    assert (IZR n <= 159) by (apply IZR_le; lia).
    lra.
  - apply Math_floor_bounds.
Qed.

(** X14: the status and its colour follow the reading in four bands: Good up
    to 50, Moderate from 51 to 100, Sensitive from 101 to 150, Unhealthy
    above, which leaves it the readings 151 to 159 only. *)
Theorem getSimulatedAQI_status (lat lng : R) :
  let reading := getSimulatedAQI lat lng in
  (aqi reading <= 50 /\ status reading = "Good"%string
   /\ color reading = "#22d3ee"%string)
  \/ (50 < aqi reading <= 100 /\ status reading = "Moderate"%string
      /\ color reading = "#eab308"%string)
  \/ (100 < aqi reading <= 150 /\ status reading = "Sensitive"%string
      /\ color reading = "#f97316"%string)
  \/ (150 < aqi reading <= 159 /\ status reading = "Unhealthy"%string
      /\ color reading = "#ef4444"%string).
Proof.
  cbn zeta. destruct (getSimulatedAQI_aqi_range lat lng) as (n & Hn & Hrange).
  assert (Hmax : aqi (getSimulatedAQI lat lng) <= 159).
  { rewrite Hn. apply IZR_le. lia. }
  revert Hmax. rewrite getSimulatedAQI_aqi. unfold getSimulatedAQI. cbn zeta.
  set (reading := Math_floor _). intros Hmax.
  destruct (decide (reading > 150)); [right; right; right; cbn; split; [lra|easy]|].
  destruct (decide (reading > 100)); [right; right; left; cbn; split; [lra|easy]|].
  destruct (decide (reading > 50)); [right; left; cbn; split; [lra|easy]|].
  left. cbn. split; [lra|easy].
Qed.

(** X15: the bar under the reading is half the reading wide, between 5 and
    79.5 percent: the cap at 100 is never reached. *)
Theorem aqiBarWidth_uncapped (lat lng : R) :
  aqiBarWidth (getSimulatedAQI lat lng) = aqi (getSimulatedAQI lat lng) / 2
  /\ 5 <= aqiBarWidth (getSimulatedAQI lat lng) <= 79.5.
Proof.
  destruct (getSimulatedAQI_aqi_range lat lng) as (n & Hn & Hrange).
  assert (10 <= IZR n) by (apply IZR_le; lia).
  assert (IZR n <= 159) by (apply IZR_le; lia).
  unfold aqiBarWidth. rewrite Hn, Rmin_left by lra. lra.
Qed.

(** * The smooth zoom *)

Lemma pow_odd_mono (n : nat) (x y : R) :
  x <= y -> x ^ (2 * n + 1) <= y ^ (2 * n + 1).
Proof.
  intros Hxy.
  assert (Hneg : forall v, (- v) ^ (2 * n + 1) = - v ^ (2 * n + 1)).
  { intros v. rewrite pow_add, pow_1, pow_add, pow_1, pow_mult.
    replace ((- v) ^ 2) with (v ^ 2) by ring. rewrite <- pow_mult. ring. }
  destruct (Rle_dec 0 x) as [Hx|Hx].
  - apply pow_incr. lra.
  - destruct (Rle_dec 0 y) as [Hy|Hy].
    + assert (0 <= y ^ (2 * n + 1)) by (apply pow_le; lra).
      assert (0 <= (- x) ^ (2 * n + 1)) by (apply pow_le; lra).
      rewrite Hneg in *. lra.
    + assert ((- y) ^ (2 * n + 1) <= (- x) ^ (2 * n + 1)) by (apply pow_incr; lra).
      rewrite !Hneg in *. lra.
Qed.

Lemma pow5_mono (x y : R) : x <= y -> x ^ 5 <= y ^ 5.
Proof. apply (pow_odd_mono 2). Qed.

Lemma easeInOutQuint_low (x : R) : x < 0.5 -> easeInOutQuint x = 16 * x ^ 5.
Proof. intros Hx. unfold easeInOutQuint. rewrite decide_True by exact Hx. ring. Qed.

Lemma easeInOutQuint_high (x : R) :
  ~ x < 0.5 -> easeInOutQuint x = 1 - (2 - 2 * x) ^ 5 / 2.
Proof.
  intros Hx. unfold easeInOutQuint. rewrite decide_False by exact Hx.
  replace (-2 * x + 2) with (2 - 2 * x) by ring. reflexivity.
Qed.

Lemma easeInOutQuint_mono (x y : R) :
  x <= y -> easeInOutQuint x <= easeInOutQuint y.
Proof.
  intros Hxy.
  destruct (Rlt_dec x 0.5) as [Hx|Hx], (Rlt_dec y 0.5) as [Hy|Hy].
  - rewrite !easeInOutQuint_low by assumption.
    pose proof (pow5_mono x y Hxy). lra.
  - rewrite (easeInOutQuint_low x Hx), (easeInOutQuint_high y Hy).
    pose proof (pow5_mono x 0.5 ltac:(lra)) as H1.
    pose proof (pow5_mono (2 - 2 * y) 1 ltac:(lra)) as H2.
    replace (0.5 ^ 5) with (1 / 32) in H1 by (simpl; lra).
    replace (1 ^ 5) with 1 in H2 by ring. lra.
  - lra.
  - rewrite !easeInOutQuint_high by assumption.
    pose proof (pow5_mono (2 - 2 * y) (2 - 2 * x) ltac:(lra)). lra.
Qed.

Lemma easeInOutQuint_ends : easeInOutQuint 0 = 0 /\ easeInOutQuint 1 = 1.
Proof.
  split.
  - rewrite easeInOutQuint_low by lra. ring.
  - rewrite easeInOutQuint_high by lra. field.
Qed.

Lemma easeInOutQuint_unit (x : R) : 0 <= x <= 1 -> 0 <= easeInOutQuint x <= 1.
Proof.
  intros [H0 H1]. destruct easeInOutQuint_ends as [E0 E1].
  pose proof (easeInOutQuint_mono 0 x H0). pose proof (easeInOutQuint_mono x 1 H1).
  lra.
Qed.

(** X16: the easing is symmetric about the midpoint: the eased value of 1 - x
    is 1 minus the eased value of x, so the two branches meet at
    (0.5, 0.5). *)
Theorem easeInOutQuint_symmetric (x : R) :
  easeInOutQuint (1 - x) = 1 - easeInOutQuint x
  /\ easeInOutQuint 0.5 = 0.5.
Proof.
  assert (Hmid : easeInOutQuint 0.5 = 0.5).
  { rewrite easeInOutQuint_high by lra.
    replace (2 - 2 * 0.5) with 1 by lra. rewrite pow1. lra. }
  split; [|exact Hmid].
  destruct (Rlt_dec x 0.5) as [Hx|Hx], (Rlt_dec (1 - x) 0.5) as [Hy|Hy].
  - lra.
  - rewrite (easeInOutQuint_low x Hx), (easeInOutQuint_high (1 - x) Hy). field.
  - rewrite (easeInOutQuint_low (1 - x) Hy), (easeInOutQuint_high x Hx). field.
  - replace x with 0.5 by lra. replace (1 - 0.5) with 0.5 by lra.
    rewrite Hmid. lra.
Qed.

(** X17: the easing never decreases, and it maps 0 to 0, 1 to 1 and the
    interval between them into itself. *)
Theorem easeInOutQuint_monotone (x y : R) :
  x <= y ->
  easeInOutQuint x <= easeInOutQuint y
  /\ easeInOutQuint 0 = 0 /\ easeInOutQuint 1 = 1
  /\ (0 <= x -> y <= 1 -> 0 <= easeInOutQuint x /\ easeInOutQuint y <= 1).
Proof.
  intros Hxy. destruct easeInOutQuint_ends as [E0 E1].
  split; [now apply easeInOutQuint_mono|]. split; [exact E0|]. split; [exact E1|].
  intros Hx Hy.
  pose proof (easeInOutQuint_mono 0 x Hx). pose proof (easeInOutQuint_mono y 1 Hy).
  lra.
Qed.

Lemma easeInOutQuint_monotone_witness :
  0.25 <= 0.75
  /\ (easeInOutQuint 0.25 <= easeInOutQuint 0.75
      /\ easeInOutQuint 0 = 0 /\ easeInOutQuint 1 = 1
      /\ (0 <= 0.25 -> 0.75 <= 1 ->
          0 <= easeInOutQuint 0.25 /\ easeInOutQuint 0.75 <= 1)).
Proof.
  assert (H : 0.25 <= 0.75) by lra.
  split; [exact H | exact (easeInOutQuint_monotone 0.25 0.75 H)].
Defined.

(** X18: a frame of the zoom animation that does not precede the start sets a
    zoom between the start zoom and the target; it asks for another frame
    exactly while less than 1000 ms have passed, and from 1000 ms on it
    sets the target itself. *)
Theorem animate_between (startZoom targetZoom startTime currentTime : R) :
  startTime <= currentTime ->
  let '(nextZoom, again) := animate startZoom targetZoom startTime currentTime in
  Rmin startZoom targetZoom <= nextZoom <= Rmax startZoom targetZoom
  /\ (again = true <-> currentTime - startTime < 1000)
  /\ (1000 <= currentTime - startTime -> nextZoom = targetZoom).
Proof.
  intros Htime. unfold animate. cbn zeta.
  set (progress := Rmin ((currentTime - startTime) / 1000) 1).
  assert (Hp : 0 <= progress <= 1).
  { unfold progress, Rmin. destruct (Rle_dec _ _); lra. }
  pose proof (easeInOutQuint_unit progress Hp) as He.
  split; [|split].
  - unfold Rmin, Rmax. destruct (Rle_dec startZoom targetZoom); split; nra.
  - rewrite bool_decide_eq_true. unfold progress, Rmin.
    destruct (Rle_dec _ _); split; lra.
  - intros Hdone.
    assert (Hone : progress = 1).
    { unfold progress. apply Rmin_right. lra. }
    rewrite Hone. destruct easeInOutQuint_ends as [_ ->]. ring.
Qed.

Lemma animate_between_witness :
  0 <= 500
  /\ (let '(nextZoom, again) := animate 2 3 0 500 in
      Rmin 2 3 <= nextZoom <= Rmax 2 3
      /\ (again = true <-> 500 - 0 < 1000)
      /\ (1000 <= 500 - 0 -> nextZoom = 3)).
Proof.
  assert (H : 0 <= 500) by lra.
  split; [exact H | exact (animate_between 2 3 0 500 H)].
Defined.

(** X19: from a zoom between 1.5 and 12, every frame of the zoom-out and of
    the zoom-in animation whose timestamp is not before the start of the
    animation sets a zoom between 1.5 and 12.  (The progress has no lower
    clamp: a frame stamped before the start can leave the range, see
    [animate_early_frame].) *)
Theorem zoom_buttons_within_limits (zoom startTime currentTime : R) :
  1.5 <= zoom <= 12 ->
  startTime <= currentTime ->
  1.5 <= (animate zoom (zoomOutTarget zoom) startTime currentTime).1 <= 12
  /\ 1.5 <= (animate zoom (zoomInTarget zoom) startTime currentTime).1 <= 12.
Proof.
  intros Hzoom Htime.
  assert (Hframe : forall target, 1.5 <= target <= 12 ->
            1.5 <= (animate zoom target startTime currentTime).1 <= 12).
  { intros target Htarget. unfold animate. cbn zeta. cbn [fst].
    set (progress := Rmin ((currentTime - startTime) / 1000) 1).
    assert (Hp : 0 <= progress <= 1).
    { unfold progress, Rmin. destruct (Rle_dec _ _); lra. }
    pose proof (easeInOutQuint_unit progress Hp) as He.
    split; nra. }
  split; apply Hframe.
  - unfold zoomOutTarget, Rmax. destruct (Rle_dec _ _); lra.
  - unfold zoomInTarget, Rmin. destruct (Rle_dec _ _); lra.
Qed.

Lemma zoom_buttons_within_limits_witness :
  1.5 <= 2 <= 12 /\ 0 <= 500
  /\ 1.5 <= (animate 2 (zoomOutTarget 2) 0 500).1 <= 12
  /\ 1.5 <= (animate 2 (zoomInTarget 2) 0 500).1 <= 12.
Proof.
  assert (H1 : 1.5 <= 2 <= 12) by lra.
  assert (H2 : 0 <= 500) by lra.
  split; [exact H1|]. split; [exact H2|].
  exact (zoom_buttons_within_limits 2 0 500 H1 H2).
Defined.

(** The condition on the timestamp is needed: a frame stamped 500 ms
    before the start of a zoom-out from 12 sets the zoom 12.5. *)
Lemma animate_early_frame : (animate 12 (zoomOutTarget 12) 0 (-500)).1 = 12.5.
Proof.
  unfold animate, zoomOutTarget. cbn zeta. cbn [fst].
  replace (Rmax (12 - 1) 1.5) with 11 by (rewrite Rmax_left; lra).
  replace (Rmin ((-500 - 0) / 1000) 1) with (-0.5) by (rewrite Rmin_left; lra).
  rewrite easeInOutQuint_low by lra.
  replace ((-0.5) ^ 5) with (- (1 / 32)) by (simpl; lra). lra.
Qed.

(** * The globe's animation *)

Lemma pulse_unit (t : R) : 0 <= pulse t <= 1.
Proof. unfold pulse. pose proof (SIN_bound (t * 2)). lra. Qed.

Lemma introFactor_unit (t : R) : 0 <= t -> 0 <= introFactor t <= 1.
Proof.
  intros Ht. unfold introFactor, introDuration.
  destruct (decide (t < 3)); [|lra].
  assert (0 <= 1 - t / 3 <= 1) by lra.
  replace ((1 - t / 3) ^ 2) with ((1 - t / 3) * (1 - t / 3)) by ring. nra.
Qed.

(** X20: the pulse stays between 0 and 1, so the glow shell's scale stays
    between 1.05 and 1.065 and the emissive intensity between 1.2 and 2.7
    once the intro is over, and between 0 and 6.5 during it. *)
Theorem pulse_bounds (t : R) :
  0 <= pulse t <= 1
  /\ 1.05 <= glowScale t <= 1.065
  /\ (introDuration <= t -> 1.2 <= emissiveIntensity t <= 2.7)
  /\ (0 <= t < introDuration -> 0 <= emissiveIntensity t <= 6.5).
Proof.
  pose proof (pulse_unit t) as Hp.
  split; [exact Hp|]. split; [unfold glowScale; lra|].
  unfold emissiveIntensity, introDuration. split.
  - intros Ht. rewrite decide_False by lra. lra.
  - intros [Ht0 Ht3]. rewrite decide_True by lra.
    pose proof (introFactor_unit t Ht0). lra.
Qed.

(** X21: during the intro the frame sets a tilt of at most 0.2 about the x axis
    and 0.1 about the z axis, whatever the rotation was, and turns the
    globe forward by at most 0.5 about the y axis. *)
Theorem groupFrame_intro (active : bool) (t : R) (rotation : Euler) :
  0 <= t < introDuration ->
  let next := groupFrame active t rotation in
  Rabs (rotX next) <= 0.2
  /\ Rabs (rotZ next) <= 0.1
  /\ rotY rotation <= rotY next <= rotY rotation + 0.5.
Proof.
  intros [Ht0 Ht3]. cbn zeta. unfold groupFrame.
  rewrite decide_True by exact Ht3. cbn [rotX rotY rotZ].
  pose proof (introFactor_unit t Ht0) as Hf.
  pose proof (SIN_bound (t * 10)) as Hs. pose proof (COS_bound (t * 8)) as Hc.
  repeat split; try (apply Rabs_le; split); nra.
Qed.

Lemma groupFrame_intro_witness :
  0 <= 1 < introDuration
  /\ (let next := groupFrame true 1 (mkEuler 0 0 0) in
      Rabs (rotX next) <= 0.2
      /\ Rabs (rotZ next) <= 0.1
      /\ rotY (mkEuler 0 0 0) <= rotY next <= rotY (mkEuler 0 0 0) + 0.5).
Proof.
  assert (H : 0 <= 1 < introDuration) by (unfold introDuration; lra).
  split; [exact H | exact (groupFrame_intro true 1 (mkEuler 0 0 0) H)].
Defined.

Lemma groupFrames_snoc (active : bool) (ts : list R) (t : R) (rotation : Euler) :
  groupFrames active (ts ++ [t]) rotation
  = groupFrame active t (groupFrames active ts rotation).
Proof. unfold groupFrames. now rewrite foldl_app. Qed.

(** X22: after the intro every frame multiplies the tilt about x and z by 0.95
    and advances the turn about y by 0.002 times the speed multiplier: n
    frames leave the tilt times 0.95^n and add n such steps. *)
Theorem groupFrames_settle (active : bool) (ts : list R) (rotation : Euler) :
  Forall (fun t => introDuration <= t) ts ->
  let final := groupFrames active ts rotation in
  let speedMultiplier := if active then 0.15 else 0.8 in
  rotX final = rotX rotation * 0.95 ^ length ts
  /\ rotZ final = rotZ rotation * 0.95 ^ length ts
  /\ rotY final = rotY rotation + INR (length ts) * (0.002 * speedMultiplier).
Proof.
  cbn zeta. induction ts as [|t ts IH] using rev_ind; intros Hall.
  - cbn. repeat split; ring.
  - apply Forall_app in Hall as [Hts Ht]. apply Forall_inv in Ht.
    destruct (IH Hts) as (Hx & Hz & Hy).
    rewrite groupFrames_snoc, length_app. cbn [length].
    unfold groupFrame. rewrite decide_False by lra. cbn [rotX rotY rotZ].
    rewrite Hx, Hz, Hy. rewrite Nat.add_1_r, S_INR. cbn [pow].
    repeat split; ring.
Qed.

Lemma groupFrames_settle_witness :
  Forall (fun t => introDuration <= t) [3; 4]
  /\ (let final := groupFrames false [3; 4] (mkEuler 1 0 1) in
      let speedMultiplier := 0.8 in
      rotX final = rotX (mkEuler 1 0 1) * 0.95 ^ length [3; 4]
      /\ rotZ final = rotZ (mkEuler 1 0 1) * 0.95 ^ length [3; 4]
      /\ rotY final
         = rotY (mkEuler 1 0 1) + INR (length [3; 4]) * (0.002 * speedMultiplier)).
Proof.
  assert (H : Forall (fun t => introDuration <= t) [3; 4]).
  { unfold introDuration. repeat constructor; lra. }
  split; [exact H | exact (groupFrames_settle false [3; 4] (mkEuler 1 0 1) H)].
Defined.

(** * The intro camera *)

Lemma introCamera_ease (t : R) :
  0 <= t < 3 ->
  Rmin (t / 3.0) 1 = t / 3 /\ 0 <= 1 - (1 - t / 3) ^ 3 < 1.
Proof.
  intros [Ht0 Ht3]. split.
  - replace 3.0 with 3 by lra. apply Rmin_left. lra.
  - assert (Hq : 0 < 1 - t / 3 <= 1) by lra.
    set (q := 1 - t / 3) in *.
    assert (0 < q * q <= 1) by nra.
    replace (q ^ 3) with (q * (q * q)) by ring. nra.
Qed.

(** X23: during the intro the camera is set between its target distance
    (5.8 when active, 8.5 otherwise) and the start distance 20, at 20
    exactly at time 0; [onIntroEnd] is not called and the finished flag is
    left as it was. *)
Theorem introCameraFrame_intro (active : bool) (t : R) (st : IntroState) :
  0 <= t < 3 ->
  let targetZ := if active then 5.8 else 8.5 in
  let '(next, called) := introCameraFrame active t st in
  targetZ <= cameraZ next <= 20
  /\ (t = 0 -> cameraZ next = 20)
  /\ called = false
  /\ introFinished next = introFinished st.
Proof.
  intros Ht. cbn zeta. unfold introCameraFrame.
  rewrite decide_True by (destruct Ht; lra). cbn [cameraZ introFinished].
  destruct (introCamera_ease t Ht) as [-> He].
  split; [|split; [|split; reflexivity]].
  - destruct active; split; nra.
  - intros ->. replace (0 / 3) with 0 by lra.
    replace ((1 - 0) ^ 3) with 1 by ring. ring.
Qed.

Lemma introCameraFrame_intro_witness :
  0 <= 1 < 3
  /\ (let '(next, called) := introCameraFrame true 1 (mkIntroState false 20) in
      5.8 <= cameraZ next <= 20
      /\ (1 = 0 -> cameraZ next = 20)
      /\ called = false
      /\ introFinished next = introFinished (mkIntroState false 20)).
Proof.
  assert (H : 0 <= 1 < 3) by lra.
  split; [exact H | exact (introCameraFrame_intro true 1 (mkIntroState false 20) H)].
Defined.

(** X24: during the intro a later frame never sets the camera farther away
    than an earlier one. *)
Theorem introCameraFrame_approaches (active : bool) (t1 t2 : R) (st1 st2 : IntroState) :
  0 <= t1 -> t1 <= t2 -> t2 < 3 ->
  cameraZ (introCameraFrame active t2 st2).1 <= cameraZ (introCameraFrame active t1 st1).1.
Proof.
  intros H0 H12 H3. unfold introCameraFrame.
  rewrite !decide_True by lra. cbn [fst cameraZ].
  destruct (introCamera_ease t1 ltac:(lra)) as [-> _].
  destruct (introCamera_ease t2 ltac:(lra)) as [-> _].
  assert (Hpow : (1 - t2 / 3) ^ 3 <= (1 - t1 / 3) ^ 3) by (apply pow_incr; lra).
  destruct active; nra.
Qed.

Lemma introCameraFrame_approaches_witness :
  0 <= 1 /\ 1 <= 2 /\ 2 < 3
  /\ cameraZ (introCameraFrame true 2 (mkIntroState false 20)).1
     <= cameraZ (introCameraFrame true 1 (mkIntroState false 20)).1.
Proof.
  assert (H0 : 0 <= 1) by lra. assert (H12 : 1 <= 2) by lra. assert (H3 : 2 < 3) by lra.
  split; [exact H0|]. split; [exact H12|]. split; [exact H3|].
  exact (introCameraFrame_approaches true 1 2 _ _ H0 H12 H3).
Defined.

(** X25: over any sequence of frames [onIntroEnd] is called at most once: once
    exactly when the intro was not yet finished and some frame comes at
    time 3 or later, and then the intro stays finished; no frame at time 3
    or later moves the camera. *)
Theorem introCameraFrames_once (active : bool) (ts : list R) (st : IntroState) :
  let '(final, calls) := introCameraFrames active ts st in
  (calls <= 1)%nat
  /\ (calls = 1%nat <-> introFinished st = false /\ Exists (fun t => 3 <= t) ts)
  /\ (introFinished final = true
      <-> introFinished st = true \/ Exists (fun t => 3 <= t) ts)
  /\ (Forall (fun t => 3 <= t) ts -> cameraZ final = cameraZ st).
Proof.
  revert st. induction ts as [|t rest IH]; intros st.
  - cbn. split; [lia|]. split; [|split].
    + split; [discriminate | intros [_ H]; inversion H].
    + split; [intros H; now left | intros [H|H]; [exact H | inversion H]].
    + reflexivity.
  - cbn [introCameraFrames].
    destruct (introCameraFrame active t st) as [st' called] eqn:Hframe.
    specialize (IH st').
    destruct (introCameraFrames active rest st') as [final calls].
    destruct IH as (Hle & Hone & Hfin & Hcam).
    unfold introCameraFrame in Hframe.
    destruct (decide (t < 3.0)) as [Hlt|Hge].
    + injection Hframe as <- <-. cbn [introFinished cameraZ] in *.
      assert (Hex : Exists (fun t0 => 3 <= t0) (t :: rest)
                    <-> Exists (fun t0 => 3 <= t0) rest).
      { rewrite Exists_cons. split; [intros [?|?]; [lra|assumption] | now right]. }
      rewrite Hex. repeat split; try (cbn; lia); try tauto.
      intros Hall. apply Forall_inv in Hall. lra.
    + assert (Hex : Exists (fun t0 => 3 <= t0) (t :: rest)).
      { apply Exists_cons. left. lra. }
      destruct (introFinished st) eqn:Hst; cbn [negb] in Hframe;
        injection Hframe as <- <-; cbn [introFinished cameraZ] in *.
      * assert (Hcalls : calls = 0%nat).
        { destruct calls as [|[|n]]; [reflexivity| |lia].
          destruct (proj1 Hone eq_refl) as [Hbad _]. congruence. }
        subst calls. cbn [Nat.add]. split; [lia|]. split; [|split].
        -- split; [discriminate | intros [Hbad _]; discriminate].
        -- split; [intros _; now left | intros _; apply Hfin; now left].
        -- intros Hall. apply Hcam. now apply Forall_inv_tail in Hall.
      * assert (Hcalls : calls = 0%nat).
        { destruct calls as [|[|n]]; [reflexivity| |lia].
          destruct (proj1 Hone eq_refl) as [Hbad _]. discriminate. }
        subst calls. cbn [Nat.add]. split; [lia|]. split; [|split].
        -- split; [intros _; now split | reflexivity].
        -- split; [intros _; now right | intros _; apply Hfin; now left].
        -- intros Hall. apply Hcam. now apply Forall_inv_tail in Hall.
Qed.

(** * Termination of the scanline loop *)

(** X26: for a positive step the scanline loop ends by its own test: it runs
    [scanCount] times, whatever room it is given beyond that, the latitude
    it stops at is the first of the progression above the bound, and the
    latitudes it visited are strictly increasing by the step. *)
Theorem scanline_loop_terminates (gridStep start maxLat : R) (fuel : nat) :
  0 < gridStep ->
  (scanCount gridStep start maxLat <= fuel)%nat ->
  let n := scanCount gridStep start maxLat in
  scanLatitudes fuel gridStep start maxLat
  = map (fun k => start + INR k * gridStep) (seq 0 n)
  /\ length (scanLatitudes fuel gridStep start maxLat) = n
  /\ maxLat < start + INR n * gridStep.
Proof.
  intros Hpos Hfuel. cbn zeta.
  rewrite (scanLatitudes_progression gridStep maxLat Hpos fuel start).
  rewrite Nat.min_r by exact Hfuel.
  split; [reflexivity|]. split; [now rewrite length_map, length_seq|].
  apply Rnot_le_lt. intros Hle.
  apply (scanCount_spec gridStep maxLat Hpos start) in Hle. lia.
Qed.

Lemma scanline_loop_terminates_witness :
  0 < 5 /\ (scanCount 5 0 10 <= scanCount 5 0 10 + 4)%nat
  /\ (let n := scanCount 5 0 10 in
      scanLatitudes (scanCount 5 0 10 + 4) 5 0 10
      = map (fun k => 0 + INR k * 5) (seq 0 n)
      /\ length (scanLatitudes (scanCount 5 0 10 + 4) 5 0 10) = n
      /\ 10 < 0 + INR n * 5).
Proof.
  assert (H1 : 0 < 5) by lra.
  assert (H2 : (scanCount 5 0 10 <= scanCount 5 0 10 + 4)%nat) by lia.
  split; [exact H1|]. split; [exact H2|].
  exact (scanline_loop_terminates 5 0 10 (scanCount 5 0 10 + 4) H1 H2).
Defined.
